(** * The concurrent trie store of miniSTL ([src/trie/concurrent_trie.hpp])

    The development has three layers.

    - [Trie]: the persistent trie that [concurrent_trie.hpp] includes from
      [copy-on-write_trie.hpp].  Snapshots are immutable values; [Get], [Put]
      and [Remove] are pure functions.
    - [ValueGuard]: the guard class, a snapshot held by value next to a
      reference to a value.
    - [TrieStore]: the store.  Its three methods are statement lists that
      follow the source line by line; threads interleave at statement
      granularity and block on the two mutexes.

    References are modelled with a small ownership model: every stored value
    lives in a cell with an address, a cell is allocated as long as some live
    snapshot reaches it, and reading through a reference to a cell that is no
    longer allocated has no defined result. *)

From Stdlib Require Import Ascii String.
From stdpp Require Import gmap strings list fin_maps.

Set Warnings "-register-all".

(** ** The persistent trie *)

Module Trie.
Section Trie.
Context {Tag : Type} `{!EqDecision Tag} {Val : Tag → Type}.

(** Modelled from the spec: the value slot of a Node in
    copy-on-write_trie.hpp (not among the sources), "optional type-erased
    payload plus a runtime type tag".  [addr] is the identity of the stored
    object, the thing a C++ reference to it designates. *)
Record Cell := mkCell { addr : nat; tag : Tag; obj : Val tag }.

(** Modelled from the spec: the Node of copy-on-write_trie.hpp, "a set of
    branch edges (character → child node) and an optional type-erased value
    slot". *)
Inductive Node := mkNode (value : option Cell) (branches : gmap ascii Node).

Definition value (n : Node) : option Cell := let 'mkNode v _ := n in v.
Definition branches (n : Node) : gmap ascii Node := let 'mkNode _ bs := n in bs.

(** Modelled from the spec: the Trie handle of copy-on-write_trie.hpp, "a
    reference to a root Node, or empty (no root)". *)
Record t := mk { root : option Node }.

Definition empty : t := mk None.

(** What [Get<T>] hands out: a [const T *].  The pointee is immutable, so the
    pointer is modelled by the address together with the object found
    there; whether the address is still allocated is a separate question,
    answered by [holds] below. *)
Record ptr (T : Tag) := mkPtr { p_addr : nat; p_val : Val T }.
Global Arguments mkPtr {T} _ _.
Global Arguments p_addr {T} _.
Global Arguments p_val {T} _.

(** The runtime-checked downcast: absence on a tag mismatch. *)
Definition as_type (T : Tag) (c : Cell) : option (ptr T) :=
  match decide (tag c = T) with
  | left e => Some (mkPtr (addr c) (eq_rect (tag c) Val (obj c) T e))
  | right _ => None
  end.

(** Modelled from the spec: the walk of Lookup, "consuming one key-symbol per
    level, following the matching branch reference; fails if any expected
    branch is absent". *)
Fixpoint find (key : string) (n : Node) : option Cell :=
  match key with
  | EmptyString => value n
  | String ch key' => branches n !! ch ≫= find key'
  end.

(** Modelled from the spec: path copying of Insert.  Every node on the path
    is rebuilt with the original's branch map and value, the branch that
    continues the path replaced or added; the terminal node receives the
    new value.  The empty key stores at the root; a missing node is treated
    as one with no value and no branches. *)
Fixpoint insert (key : string) (c : Cell) (n : option Node) : Node :=
  match key with
  | EmptyString => mkNode (Some c) (from_option branches ∅ n)
  | String ch key' =>
      let bs := from_option branches ∅ n in
      mkNode (n ≫= value) (<[ch := insert key' c (bs !! ch)]> bs)
  end.

(** A copied node that has neither a value nor remaining branches is
    dropped. *)
Definition prune (n : Node) : option Node :=
  match value n with
  | Some _ => Some n
  | None => if decide (branches n = ∅) then None else Some n
  end.

(** Modelled from the spec: Erase, "path-copies down to the key's terminal
    node, clears its value (...) and recursively prunes any now-empty copied
    ancestor".  [None] says that the node was dropped. *)
Fixpoint erase (key : string) (n : Node) : option Node :=
  match key with
  | EmptyString => prune (mkNode None (branches n))
  | String ch key' =>
      match branches n !! ch with
      | None => Some n
      | Some child =>
          match erase key' child with
          | Some child' => Some (mkNode (value n) (<[ch := child']> (branches n)))
          | None => prune (mkNode (value n) (delete ch (branches n)))
          end
      end
  end.

(** Modelled from the spec: [Trie::Get<T>], the Lookup of section 4.1;
    a null pointer is [None]. *)
Definition Get (T : Tag) (s : t) (key : string) : option (ptr T) :=
  (root s ≫= find key) ≫= as_type T.

(** Modelled from the spec: [Trie::Put<T>], the Insert of section 4.1.  The
    cell holding the moved-in value is allocated by the caller. *)
Definition Put (s : t) (key : string) (c : Cell) : t :=
  mk (Some (insert key c (root s))).

(** Modelled from the spec: [Trie::Remove], the Erase of section 4.1. *)
Definition Remove (s : t) (key : string) : t :=
  mk (root s ≫= erase key).

(** The raw slot content of a snapshot at a key, whatever its type. *)
Definition slot (s : t) (key : string) : option Cell := root s ≫= find key.

(** Shared ownership: a snapshot keeps alive every cell it reaches. *)
Fixpoint holds_node (a : nat) (n : Node) : bool :=
  match n with
  | mkNode v bs =>
      bool_decide (addr <$> v = Some a)
      || map_fold (λ _ n' acc, holds_node a n' || acc) false bs
  end.

Definition holds (a : nat) (s : t) : bool :=
  match root s with
  | Some n => holds_node a n
  | None => false
  end.

(** A snapshot as the operations build it: no node without a value and
    without branches. *)
Inductive wf_node : Node → Prop :=
| wf_mkNode v bs :
    (v = None → bs ≠ ∅) →
    (∀ ch n, bs !! ch = Some n → wf_node n) →
    wf_node (mkNode v bs).

Definition wf (s : t) : Prop :=
  match root s with
  | Some n => wf_node n
  | None => True
  end.

End Trie.
Global Arguments Cell {Tag} Val.
Global Arguments Node {Tag} Val.
Global Arguments t {Tag} Val.
Global Arguments ptr {Tag} Val T.
End Trie.

(** ** Objects and references

    A cell stays allocated as long as one of the live snapshots reaches it.
    Reading through a pointer is defined exactly then. *)

Module Memory.
Section Memory.
Context {Tag : Type} {Val : Tag → Type}.

Definition allocated (live : list (Trie.t Val)) (a : nat) : bool :=
  existsb (Trie.holds a) live.

Definition read {T : Tag} (live : list (Trie.t Val)) (p : Trie.ptr Val T)
  : option (Val T) :=
  if allocated live (Trie.p_addr p) then Some (Trie.p_val p) else None.

End Memory.
End Memory.

(** ** The guard *)

Module ValueGuard.
Section ValueGuard.
Context {Tag : Type} {Val : Tag → Type}.

(** [class ValueGuard]: the members [Trie root_] (a snapshot held by value)
    and [const T &value_] (a reference to the object). *)
Record t (T : Tag) := mk { root_ : Trie.t Val; value_ : Trie.ptr Val T }.
Global Arguments mk {T} _ _.
Global Arguments root_ {T} _.
Global Arguments value_ {T} _.

(** [ValueGuard(Trie root, const T &value) : root_(std::move(root)),
    value_(value) {}].  The parameter [root] is a copy made by the caller's
    argument expression. *)
Definition make {T : Tag} (root : Trie.t Val) (value : Trie.ptr Val T) : t T :=
  mk root value.

(** [operator*() const -> const T & { return value_; }], and the read through
    the returned reference.  While the guard exists its member [root_] is
    live; [others] are the snapshots kept alive by the rest of the program. *)
Definition deref {T : Tag} (others : list (Trie.t Val)) (g : t T) : option (Val T) :=
  Memory.read (root_ g :: others) (value_ g).

End ValueGuard.
Global Arguments t {Tag} Val T.
End ValueGuard.

(** ** The store *)

Module TrieStore.
Section TrieStore.
Context {Tag : Type} `{!EqDecision Tag} {Val : Tag → Type}.

Definition tid := nat.

(** The two [std::mutex] members. *)
Inductive mutex := RootLock | WriteLock.

(** [class TrieStore]: [std::mutex root_lock_; std::mutex write_lock_;
    Trie root_;].  A mutex records the thread that holds it. *)
Record t := mk {
  root_lock_ : option tid;
  write_lock_ : option tid;
  root_ : Trie.t Val;
}.

Definition owner (m : mutex) (st : t) : option tid :=
  match m with
  | RootLock => root_lock_ st
  | WriteLock => write_lock_ st
  end.

Definition set_owner (m : mutex) (o : option tid) (st : t) : t :=
  match m with
  | RootLock => mk o (write_lock_ st) (root_ st)
  | WriteLock => mk (root_lock_ st) o (root_ st)
  end.

Definition set_root_ (s : Trie.t Val) (st : t) : t :=
  mk (root_lock_ st) (write_lock_ st) s.

(** What a local [Trie &] can be bound to in this class: the member
    [root_] of the store itself.  A reference holds no snapshot; every use of
    it reads the member as it is at that moment. *)
Inductive lvalue := the_root_.

Definition load (st : t) (r : lvalue) : Trie.t Val :=
  match r with the_root_ => root_ st end.

(** The statements of the three methods. *)
Inductive stmt :=
| s_lock (m : mutex)                       (* m.lock(); *)
| s_unlock (m : mutex)                     (* m.unlock(); *)
| s_bind_cur                               (* Trie & cur = root_; *)
| s_lookup (T : Tag) (key : string)        (* const T * res = cur.Get<T>(key); *)
| s_return_guard                           (* if (res == nullptr) return std::nullopt;
                                              return ValueGuard<T>(cur, *(res)); *)
| s_eval_Put (T : Tag) (key : string) (value : Val T)
                                           (* root_.Put<T>(key, std::move(value)) *)
| s_eval_Remove (key : string)             (* root_.Remove(key) *)
| s_assign_root_.                          (* root_ = <the value just computed>; *)

(** [TrieStore::Get], lines 55 to 63. *)
Definition Get (T : Tag) (key : string) : list stmt :=
  [ s_lock RootLock;
    s_bind_cur;
    s_unlock RootLock;
    s_lookup T key;
    s_return_guard ].

(** [TrieStore::Put], lines 71 to 75.  The assignment
    [root_ = root_.Put<T>(key, std::move(value))] is its right-hand side
    followed by the store into [root_]. *)
Definition Put (T : Tag) (key : string) (value : Val T) : list stmt :=
  [ s_lock WriteLock;
    s_lock RootLock;
    s_eval_Put T key value;
    s_assign_root_;
    s_unlock RootLock;
    s_unlock WriteLock ].

(** [TrieStore::Remove], lines 84 to 88. *)
Definition Remove (key : string) : list stmt :=
  [ s_lock WriteLock;
    s_lock RootLock;
    s_eval_Remove key;
    s_assign_root_;
    s_unlock RootLock;
    s_unlock WriteLock ].

(** A call of one of the methods. *)
Inductive call :=
| call_Get (T : Tag) (key : string)
| call_Put (T : Tag) (key : string) (value : Val T)
| call_Remove (key : string).

Definition body (c : call) : list stmt :=
  match c with
  | call_Get T key => Get T key
  | call_Put T key value => Put T key value
  | call_Remove key => Remove key
  end.

(** What [Get] returns: [std::nullopt] or a guard. *)
Inductive ret :=
| r_nullopt
| r_guard (T : Tag) (g : ValueGuard.t Val T).

(** The locals of a call in progress: [cur] and [res] of [Get], and the
    value of the right-hand side of the assignment in [Put] and [Remove]. *)
Record locals := mkLocals {
  cur : option lvalue;
  res : option { T : Tag & Trie.ptr Val T };
  rhs : option (Trie.t Val);
}.

Definition no_locals : locals := mkLocals None None None.

(** A thread: the calls it still has to make (the first one is in progress at
    statement [pc]), the locals of that call, and what its calls of [Get]
    have returned so far; the thread keeps every guard it was given. *)
Record thread := mkThread {
  todo : list call;
  pc : nat;
  vars : locals;
  got : list ret;
}.

Definition spawn (cs : list call) : thread := mkThread cs 0 no_locals [].

(** One statement, executed by thread [me].  [brk] is the next free address
    of the allocator; [None] means that the thread cannot move (a mutex held
    by somebody else).

    Every statement is one indivisible step.  For the statements run under
    [root_lock_] that is what the mutex gives.  The lookup of line 58 and
    the copy of [root_] on line 63 run with no mutex held, and in the program
    they can overlap a writer's store into [root_], which C++ leaves
    undefined; here they read [root_] either before or after that store.
    The runs of this machine are therefore some of the runs of the program:
    what goes wrong in one of them goes wrong in the program, whereas a
    property of all of them carries over to the program only where no
    unlocked read can meet a store (one thread on its own, readers only) or
    where it is about the mutexes and the writers alone. *)
Definition exec (me : tid) (s : stmt) (st : t) (brk : nat) (l : locals) (g : list ret)
  : option (t * nat * locals * list ret) :=
  match s with
  | s_lock m =>
      match owner m st with
      | None => Some (set_owner m (Some me) st, brk, l, g)
      | Some _ => None
      end
  | s_unlock m => Some (set_owner m None st, brk, l, g)
  | s_bind_cur => Some (st, brk, mkLocals (Some the_root_) (res l) (rhs l), g)
  | s_lookup T key =>
      r ← cur l;
      Some (st, brk,
            mkLocals (cur l) (existT T <$> Trie.Get T (load st r) key) (rhs l), g)
  | s_return_guard =>
      r ← cur l;
      Some (st, brk, l,
            g ++ [match res l with
                  | None => r_nullopt
                  | Some (existT T p) => r_guard T (ValueGuard.make (load st r) p)
                  end])
  | s_eval_Put T key value =>
      Some (st, S brk,
            mkLocals (cur l) (res l)
                     (Some (Trie.Put (root_ st) key (Trie.mkCell brk T value))), g)
  | s_eval_Remove key =>
      Some (st, brk, mkLocals (cur l) (res l) (Some (Trie.Remove (root_ st) key)), g)
  | s_assign_root_ =>
      s' ← rhs l;
      Some (set_root_ s' st, brk, mkLocals (cur l) (res l) None, g)
  end.

(** One step of a thread: the statement at [pc] of the call in progress, or,
    past the last statement, the return to the caller. *)
Definition step_thread (me : tid) (st : t) (brk : nat) (th : thread)
  : option (t * nat * thread) :=
  match todo th with
  | [] => None
  | c :: rest =>
      match body c !! pc th with
      | Some s =>
          '(st', brk', l', g') ← exec me s st brk (vars th) (got th);
          Some (st', brk', mkThread (todo th) (S (pc th)) l' g')
      | None => Some (st, brk, mkThread rest 0 no_locals (got th))
      end
  end.

(** *** One thread on its own *)

Fixpoint run (fuel : nat) (me : tid) (st : t) (brk : nat) (th : thread)
  : t * nat * thread :=
  match fuel with
  | 0 => (st, brk, th)
  | S fuel' =>
      match step_thread me st brk th with
      | Some (st', brk', th') => run fuel' me st' brk' th'
      | None => (st, brk, th)
      end
  end.

(** The number of steps a sequence of calls takes when nothing blocks. *)
Definition steps_of (cs : list call) : nat :=
  foldr (λ c n, S (length (body c)) + n) 0 cs.

(** The calls [cs] made one after the other by a single thread. *)
Definition run_calls (me : tid) (cs : list call) (st : t) (brk : nat)
  : t * nat * thread :=
  run (steps_of cs) me st brk (spawn cs).

(** No mutex is held. *)
Definition quiescent (st : t) : Prop :=
  root_lock_ st = None ∧ write_lock_ st = None.

(** *** Threads side by side *)

Record state := mkState {
  store : t;
  brk : nat;
  threads : list thread;
}.

Definition init (s0 : Trie.t Val) (brk0 : nat) (progs : list (list call)) : state :=
  mkState (mk None None s0) brk0 (spawn <$> progs).

Definition step (σ : state) (i : tid) : option state :=
  th ← threads σ !! i;
  '(st', brk', th') ← step_thread i (store σ) (brk σ) th;
  Some (mkState st' brk' (<[i := th']> (threads σ))).

(** A schedule names the thread that moves at each step. *)
Fixpoint run_sched (sched : list tid) (σ : state) : option state :=
  match sched with
  | [] => Some σ
  | i :: sched' => step σ i ≫= run_sched sched'
  end.

Definition reachable (σ0 σ : state) : Prop :=
  ∃ sched, run_sched sched σ0 = Some σ.

(** The snapshots kept alive in a state: the one in the store, the ones in
    the guards the threads hold, and the ones just computed by writers. *)
Definition thread_owned (th : thread) : list (Trie.t Val) :=
  flat_map (λ r, match r with
                 | r_nullopt => []
                 | r_guard _ g => [ValueGuard.root_ g]
                 end) (got th)
  ++ option_list (rhs (vars th)).

Definition owners (σ : state) : list (Trie.t Val) :=
  root_ (store σ) :: flat_map thread_owned (threads σ).

(** *** Positions in a method *)

Definition next_stmt (th : thread) : option stmt :=
  c ← head (todo th); body c !! pc th.

Definition is_lock (m : mutex) (s : stmt) : bool :=
  match s, m with
  | s_lock RootLock, RootLock | s_lock WriteLock, WriteLock => true
  | _, _ => false
  end.

Definition is_unlock (m : mutex) (s : stmt) : bool :=
  match s, m with
  | s_unlock RootLock, RootLock | s_unlock WriteLock, WriteLock => true
  | _, _ => false
  end.

(** A thread is inside the critical section of [m] when the call in progress
    has executed [m.lock()] and not yet [m.unlock()]. *)
Definition holding (m : mutex) (th : thread) : bool :=
  match head (todo th) with
  | Some c =>
      existsb (is_lock m) (take (pc th) (body c))
      && existsb (is_unlock m) (drop (pc th) (body c))
  | None => false
  end.

(** The tree construction of a writer: the right-hand side of its
    assignment. *)
Definition is_construction (s : stmt) : bool :=
  match s with
  | s_eval_Put _ _ _ | s_eval_Remove _ => true
  | _ => false
  end.

(** The publication of a writer: the store into [root_]. *)
Definition is_publish (s : stmt) : bool :=
  match s with
  | s_assign_root_ => true
  | _ => false
  end.

(** The compute-then-publish sequence of a writer: from the tree construction
    up to and including the store into [root_]. *)
Definition in_compute_publish (th : thread) : bool :=
  match next_stmt th with
  | Some s => is_construction s || is_publish s
  | None => false
  end.

(** The snapshot a write call produces from the snapshot [s]; a new value
    goes into the cell at address [a]. *)
Definition write_result (c : call) (s : Trie.t Val) (a : nat) : Trie.t Val :=
  match c with
  | call_Get _ _ => s
  | call_Put T key value => Trie.Put s key (Trie.mkCell a T value)
  | call_Remove key => Trie.Remove s key
  end.

Definition is_writer (c : call) : bool :=
  match c with
  | call_Get _ _ => false
  | _ => true
  end.

(** What a caller can observe of a result without looking at the snapshot
    inside the guard: absence, or the type and the pointer. *)
Definition found (r : ret) : option { T : Tag & Trie.ptr Val T } :=
  match r with
  | r_nullopt => None
  | r_guard T g => Some (existT T (ValueGuard.value_ g))
  end.

(** *** The invariant of the two mutexes

    A mutex is recorded as held by thread [i] exactly when thread [i] is
    inside the corresponding critical section. *)
Definition lock_inv (i : tid) (st : t) (th : thread) : Prop :=
  (root_lock_ st = Some i ↔ holding RootLock th = true)
  ∧ (write_lock_ st = Some i ↔ holding WriteLock th = true).

(** A writer about to store into [root_] stores what its call makes of the
    snapshot that [root_] holds at that moment. *)
Definition rhs_inv (st : t) (th : thread) : Prop :=
  ∀ c, head (todo th) = Some c → next_stmt th = Some s_assign_root_ →
       ∃ a, rhs (vars th) = Some (write_result c (root_ st) a).

Definition inv (σ : state) : Prop :=
  ∀ i th, threads σ !! i = Some th →
          lock_inv i (store σ) th ∧ rhs_inv (store σ) th.

(** The discipline the specification words for writers: whenever a thread is
    about to run the tree construction of a [Put] or a [Remove], it is not
    inside the critical section of [root_lock_]. *)
Definition construction_outside_root_lock (σ0 : state) : Prop :=
  ∀ σ i th stm,
    reachable σ0 σ → threads σ !! i = Some th →
    next_stmt th = Some stm → is_construction stm = true →
    root_lock_ (store σ) ≠ Some i.

(** *** Progress and history *)

(** The statements that read through [cur]. *)
Definition uses_cur (s : stmt) : bool :=
  match s with
  | s_lookup _ _ | s_return_guard => true
  | _ => false
  end.

(** Once the call in progress has run [Trie & cur = root_], [cur] is bound;
    and a mutex is held by a thread that exists. *)
Definition is_bind_cur (s : stmt) : bool :=
  match s with
  | s_bind_cur => true
  | _ => false
  end.

Definition past_bind_cur (th : thread) : bool :=
  match head (todo th) with
  | Some c => existsb is_bind_cur (take (pc th) (body c))
  | None => false
  end.

Definition cur_inv (th : thread) : Prop :=
  past_bind_cur th = true → is_Some (cur (vars th)).

Definition owner_inv (σ : state) : Prop :=
  ∀ m i, owner m (store σ) = Some i → is_Some (threads σ !! i).

(** The write a thread starts when it moves: its call and the address the
    allocator hands out, if the statement it runs is a tree construction. *)
Definition started (σ : state) (i : tid) : list (call * nat) :=
  match threads σ !! i with
  | Some th =>
      match head (todo th), next_stmt th with
      | Some c, Some s => if is_construction s then [(c, brk σ)] else []
      | _, _ => []
      end
  | None => []
  end.

(** The writes started along a schedule, in the order of their tree
    constructions. *)
Fixpoint history (sched : list tid) (σ : state) : list (call * nat) :=
  match sched with
  | [] => []
  | i :: sched' =>
      match step σ i with
      | Some σ' => started σ i ++ history sched' σ'
      | None => []
      end
  end.

(** A sequence of writes applied to a snapshot, one after the other. *)
Definition replay (s : Trie.t Val) (ws : list (call * nat)) : Trie.t Val :=
  foldl (λ s' w, write_result w.1 s' w.2) s ws.

(** No writer is between its tree construction and its store into [root_]. *)
Definition none_publishing (σ : state) : Prop :=
  ∀ i th, threads σ !! i = Some th → next_stmt th ≠ Some s_assign_root_.

(** What the history so far amounts to: the snapshot [s] is in [root_], or
    on its way there in the hands of the one writer about to store it. *)
Definition accounts (σ : state) (s : Trie.t Val) : Prop :=
  (∀ i th, threads σ !! i = Some th → next_stmt th = Some s_assign_root_ →
           rhs (vars th) = Some s)
  ∧ (none_publishing σ → root_ (store σ) = s).

(** The store after a call made on its own, the allocator at [a]. *)
Definition store_after (c : call) (st : t) (a : nat) : t :=
  match c with
  | call_Get _ _ => st
  | _ => set_root_ (write_result c (root_ st) a) st
  end.

(** The key a call is about. *)
Definition key_of (c : call) : string :=
  match c with
  | call_Get _ key | call_Put _ key _ | call_Remove key => key
  end.

Definition is_Get (c : call) : bool :=
  match c with
  | call_Get _ _ => true
  | _ => false
  end.

(** *** Readers on their own *)

(** No thread has a [Put] or a [Remove] left to do. *)
Definition only_reads (σ : state) : Prop :=
  ∀ i th c, threads σ !! i = Some th → c ∈ todo th → is_writer c = false.

(** A result of [Get] on a store that holds the snapshot [s0] for good: a
    guard holds [s0] and points to what a lookup in [s0] finds under some
    key. *)
Definition guard_of (s0 : Trie.t Val) (r : ret) : Prop :=
  match r with
  | r_nullopt => True
  | r_guard T g =>
      ValueGuard.root_ g = s0
      ∧ ∃ k, Trie.Get T s0 k = Some (ValueGuard.value_ g)
  end.

(** The results a thread has received are in order, and between the lookup
    and the return of a [Get] its [res] is what the lookup in [s0] finds. *)
Definition reader_inv (s0 : Trie.t Val) (th : thread) : Prop :=
  Forall (guard_of s0) (got th)
  ∧ (∀ T k, head (todo th) = Some (call_Get T k) →
            next_stmt th = Some s_return_guard →
            res (vars th) = existT T <$> Trie.Get T s0 k).

Definition readers_inv (s0 : Trie.t Val) (σ : state) : Prop :=
  root_ (store σ) = s0
  ∧ only_reads σ
  ∧ ∀ i th, threads σ !! i = Some th → reader_inv s0 th ∧ cur_inv th.

End TrieStore.
Global Arguments t {Tag} Val.
Global Arguments stmt {Tag} Val.
Global Arguments call {Tag} Val.
Global Arguments ret {Tag} Val.
Global Arguments locals {Tag} Val.
Global Arguments thread {Tag} Val.
Global Arguments state {Tag} Val.
End TrieStore.

(** ** A concrete instance: two value types, two threads *)

Module Scenario.

(** The value types of the scenarios: [uint32_t] and [std::string]. *)
Inductive ty := t_uint32 | t_string.

#[global] Instance ty_eq_dec : EqDecision ty.
Proof. solve_decision. Defined.

Definition den (T : ty) : Type :=
  match T with
  | t_uint32 => Z
  | t_string => string
  end.

Abbreviation Trie := (Trie.t den).
Abbreviation call := (TrieStore.call den).
Abbreviation state := (TrieStore.state den).

(** The snapshot after [Put("a", 1)] on an empty store; the value lives at
    address 0. *)
Definition one_key : Trie :=
  Trie.Put Trie.empty "a" (Trie.mkCell 0 t_uint32 1%Z).

(** A reader of ["a"] next to a writer of ["a"], the store empty. *)
Definition reader_and_Put : state :=
  TrieStore.init Trie.empty 0
    [ [TrieStore.call_Get t_uint32 "a"];
      [TrieStore.call_Put t_uint32 "a" 1%Z] ].

(** A reader of ["a"] next to a remover of ["a"], the store holding ["a"]. *)
Definition reader_and_Remove : state :=
  TrieStore.init one_key 1
    [ [TrieStore.call_Get t_uint32 "a"];
      [TrieStore.call_Remove "a"] ].

(** Thread 0 up to and including [root_lock_.unlock()] of [Get]. *)
Definition sched_until_unlock : list nat := [0; 0; 0].

(** Thread 1 through its whole call, return included. *)
Definition sched_writer : list nat := [1; 1; 1; 1; 1; 1; 1].

(** A store that nobody uses yet, empty or holding ["a"]. *)
Definition fresh_store : TrieStore.t den := TrieStore.mk None None Trie.empty.
Definition store_one_key : TrieStore.t den := TrieStore.mk None None one_key.

(** The pointer to the value of ["a"] in [one_key]. *)
Definition ptr_a : Trie.ptr den t_uint32 := Trie.mkPtr (T := t_uint32) 0 1%Z.

(** Two writers on an empty store. *)
Definition two_writers : state :=
  TrieStore.init Trie.empty 0
    [ [TrieStore.call_Put t_uint32 "a" 1%Z];
      [TrieStore.call_Remove "a"] ].

(** The two writers, the first through its whole call and then the second. *)
Definition sched_one_then_other : list nat :=
  [0; 0; 0; 0; 0; 0; 0; 1; 1; 1; 1; 1; 1; 1].

(** Two readers on a store holding ["a"]: one asks for ["a"], the other for
    ["a"] and then for ["b"]. *)
Definition two_readers : state :=
  TrieStore.init one_key 1
    [ [TrieStore.call_Get t_uint32 "a"];
      [TrieStore.call_Get t_uint32 "a"; TrieStore.call_Get t_uint32 "b"] ].

(** The two readers in turns: both past the lock, both lookups, both
    returns. *)
Definition sched_readers : list nat :=
  [0; 0; 0; 1; 1; 1; 0; 1; 1; 0].

End Scenario.

(** * Properties *)

(** ** The trie: lookup after insertion and removal, and ownership *)

Module TrieFacts.
Import Trie.
Section TrieFacts.
Context {Tag : Type} `{!EqDecision Tag} {Val : Tag → Type}.
Implicit Types (s : Trie.t Val) (n : Node Val) (c : Cell Val).

Lemma as_type_same a T (v : Val T) :
as_type T (mkCell a T v) = Some (mkPtr a v).
Proof.
unfold as_type; simpl. destruct (decide (T = T)) as [e|]; [|done].
by rewrite (proof_irrel e eq_refl).
Qed.

Lemma as_type_other T c : tag c ≠ T → as_type T c = None.
Proof. intros Hne. unfold as_type. by destruct (decide (tag c = T)). Qed.

Lemma as_type_addr T c p : as_type T c = Some p → p_addr p = addr c.
Proof.
unfold as_type. destruct (decide (tag c = T)); [|done].
by intros [= <-].
Qed.

Lemma find_insert_eq key c (n : option (Node Val)) : find key (insert key c n) = Some c.
Proof.
revert n. induction key as [|ch key IH]; intros n; simpl; [done|].
rewrite lookup_insert_eq; simpl. apply IH.
Qed.

Lemma find_insert_ne key key' c (n : option (Node Val)) :
key ≠ key' → find key' (insert key c n) = n ≫= find key'.
Proof.
revert key' n. induction key as [|ch key IH]; intros [|ch' key'] n Hne;
  simpl; try done.
- destruct n; simpl; [done|]. by rewrite lookup_empty.
- destruct (decide (ch = ch')) as [->|Hch].
  + rewrite lookup_insert_eq; simpl. rewrite IH by congruence.
    destruct n; simpl; [done|]. by rewrite lookup_empty.
  + rewrite lookup_insert_ne by done.
    destruct n; simpl; [done|]. by rewrite lookup_empty.
Qed.

Lemma find_prune n key : prune n ≫= find key = find key n.
Proof.
unfold prune. destruct n as [[c|] bs]; simpl; [done|].
destruct (decide (bs = ∅)) as [->|]; [|done].
destruct key; simpl; [done|]. by rewrite lookup_empty.
Qed.

Lemma find_erase key key' n :
erase key n ≫= find key' = if decide (key = key') then None else find key' n.
Proof.
revert key' n. induction key as [|ch key IH]; intros key' n.
- simpl. rewrite find_prune. by destruct key'.
- simpl. destruct (branches n !! ch) as [child|] eqn:Hch.
  + specialize (IH) as IH'.
    destruct (erase key child) as [child'|] eqn:He.
    * destruct key' as [|ch' key']; simpl; [done|].
      destruct (decide (ch = ch')) as [->|Hne].
      -- rewrite lookup_insert_eq; simpl. rewrite Hch; simpl.
         specialize (IH key' child). rewrite He in IH; simpl in IH.
         rewrite IH. repeat case_decide; congruence.
      -- rewrite lookup_insert_ne by done.
         case_decide; [congruence|done].
    * rewrite find_prune.
      destruct key' as [|ch' key']; simpl; [done|].
      destruct (decide (ch = ch')) as [->|Hne].
      -- rewrite lookup_delete_eq, Hch; simpl.
         specialize (IH key' child). rewrite He in IH; simpl in IH.
         repeat case_decide; congruence.
      -- rewrite lookup_delete_ne by done.
         case_decide; [congruence|done].
  + simpl. case_decide as Heq; [|done]. subst key'. simpl. by rewrite Hch.
Qed.

Lemma slot_Put s key key' c :
slot (Put s key c) key' = if decide (key = key') then Some c else slot s key'.
Proof.
unfold slot, Put; simpl. case_decide as Heq.
- subst. apply find_insert_eq.
- by apply find_insert_ne.
Qed.

Lemma slot_Remove s key key' :
slot (Remove s key) key' = if decide (key = key') then None else slot s key'.
Proof.
unfold slot, Remove; simpl. destruct (root s) as [n|]; simpl.
- apply find_erase.
- by case_decide.
Qed.

Lemma Get_slot T s key : Get T s key = slot s key ≫= as_type T.
Proof. done. Qed.

(** *** Ownership of the cells a snapshot reaches *)

Lemma holds_node_here a c bs : addr c = a → holds_node a (mkNode (Some c) bs) = true.
Proof.
intros <-. simpl. by rewrite bool_decide_eq_true_2.
Qed.

Lemma holds_node_below a v bs ch n' :
bs !! ch = Some n' → holds_node a n' = true → holds_node a (mkNode v bs) = true.
Proof.
intros Hch Hn'. simpl. apply orb_true_iff; right.
revert Hch.
apply (map_fold_weak_ind
         (λ r m, m !! ch = Some n' → r = true)
         (λ _ n'' acc, holds_node a n'' || acc) false); clear bs.
- by rewrite lookup_empty.
- intros i x m r Hi IH Hl. destruct (decide (i = ch)) as [->|Hne].
  + rewrite lookup_insert_eq in Hl. injection Hl as ->. by rewrite Hn'.
  + rewrite lookup_insert_ne in Hl by done. rewrite IH by done.
    apply orb_true_r.
Qed.

Lemma find_holds_node key n c : find key n = Some c → holds_node (addr c) n = true.
Proof.
revert n. induction key as [|ch key IH]; intros [v bs]; simpl.
- intros ->. by apply holds_node_here.
- destruct (bs !! ch) as [n'|] eqn:Hch; simpl; [|done].
  intros Hf. eapply holds_node_below; eauto.
Qed.

Lemma slot_holds s key c : slot s key = Some c → holds (addr c) s = true.
Proof.
unfold slot, holds. destruct (root s) as [n|]; simpl; [|done].
apply find_holds_node.
Qed.

Lemma Get_holds T s key p : Get T s key = Some p → holds (p_addr p) s = true.
Proof.
rewrite Get_slot. destruct (slot s key) as [c|] eqn:Hs; simpl; [|done].
intros Hp. rewrite (as_type_addr _ _ _ Hp). by eapply slot_holds.
Qed.

(** *** Removal of an absent key *)

Lemma erase_absent key n :
  wf_node n → find key n = None → erase key n = Some n.
Proof.
  revert n. induction key as [|ch key IH]; intros n Hwf; simpl.
  - destruct Hwf as [v bs Hne _]; simpl. intros ->. unfold prune; simpl.
    by rewrite decide_False by auto.
  - destruct Hwf as [v bs _ Hch]; simpl.
    destruct (bs !! ch) as [child|] eqn:Hl; simpl; [|done].
    intros Hf. rewrite IH by eauto. by rewrite insert_id.
Qed.

Lemma Remove_absent s key : wf s → slot s key = None → Remove s key = s.
Proof.
  destruct s as [[n|]]; unfold wf, slot, Remove; simpl; [|done].
  intros Hwf Hf. by rewrite erase_absent.
Qed.

Lemma wf_insert key c (n : option (Node Val)) :
  (∀ n', n = Some n' → wf_node n') → wf_node (insert key c n).
Proof.
  revert n. induction key as [|ch key IH]; intros n Hn; simpl.
  - constructor; [done|]. intros ch n' Hl. destruct n as [n0|]; simpl in Hl.
    + destruct (Hn n0 eq_refl) as [v bs _ Hch]. eauto.
    + by rewrite lookup_empty in Hl.
  - constructor.
    + intros _. apply insert_non_empty.
    + intros ch' n' Hl. destruct (decide (ch = ch')) as [->|Hne].
      * rewrite lookup_insert_eq in Hl. injection Hl as <-. apply IH.
        intros n'' Hl'. destruct n as [n0|]; simpl in Hl'.
        -- destruct (Hn n0 eq_refl) as [v bs _ Hch]. eauto.
        -- by rewrite lookup_empty in Hl'.
      * rewrite lookup_insert_ne in Hl by done. destruct n as [n0|]; simpl in Hl.
        -- destruct (Hn n0 eq_refl) as [v bs _ Hch]. eauto.
        -- by rewrite lookup_empty in Hl.
Qed.

Lemma wf_prune n n' :
  (∀ ch n0, branches n !! ch = Some n0 → wf_node n0) → prune n = Some n' → wf_node n'.
Proof.
  destruct n as [v bs]; unfold prune; simpl. intros Hch.
  destruct v as [c|].
  - intros [= <-]. by constructor.
  - destruct (decide (bs = ∅)); [done|]. intros [= <-]. by constructor.
Qed.

Lemma wf_erase key n n' : wf_node n → erase key n = Some n' → wf_node n'.
Proof.
  revert n n'. induction key as [|ch key IH]; intros n n' Hwf; simpl.
  - destruct Hwf as [v bs _ Hch]. apply wf_prune. simpl. eauto.
  - destruct Hwf as [v bs Hne Hch]; simpl.
    destruct (bs !! ch) as [child|] eqn:Hl.
    + destruct (erase key child) as [child'|] eqn:He.
      * intros [= <-]. constructor; [intros _; apply insert_non_empty|].
        intros ch' n0 Hl'. destruct (decide (ch = ch')) as [->|Hne'].
        -- rewrite lookup_insert_eq in Hl'. injection Hl' as <-. eauto.
        -- rewrite lookup_insert_ne in Hl' by done. eauto.
      * apply wf_prune. simpl. intros ch' n0 Hl'.
        apply lookup_delete_Some in Hl' as [_ Hl']. eauto.
    + intros [= <-]. by constructor.
Qed.

Lemma wf_empty : wf (@empty Tag Val).
Proof. done. Qed.

Lemma wf_Put s key c : wf s → wf (Put s key c).
Proof.
  unfold wf, Put; simpl. intros Hwf. apply wf_insert.
  intros n' Hn. by rewrite Hn in Hwf.
Qed.

Lemma wf_Remove s key : wf s → wf (Remove s key).
Proof.
  unfold wf, Remove; simpl. destruct (root s) as [n|]; simpl; [|done].
  intros Hwf. destruct (erase key n) as [n'|] eqn:He; [|done].
  by eapply wf_erase.
Qed.

End TrieFacts.
End TrieFacts.

(** ** The guard *)

Module GuardFacts.
Section GuardFacts.
Context {Tag : Type} {Val : Tag → Type}.

Lemma read_allocated {T : Tag} (live : list (Trie.t Val)) (p : Trie.ptr Val T) s :
  s ∈ live → Trie.holds (Trie.p_addr p) s = true →
  Memory.read live p = Some (Trie.p_val p).
Proof.
  intros Hin Hs. unfold Memory.read, Memory.allocated.
  assert (existsb (Trie.holds (Trie.p_addr p)) live = true) as ->; [|done].
  apply existsb_exists. exists s. split; [|done]. by apply list_elem_of_In.
Qed.

Lemma deref_make {T : Tag} (s : Trie.t Val) (p : Trie.ptr Val T) others :
  Trie.holds (Trie.p_addr p) s = true →
  ValueGuard.deref others (ValueGuard.make s p) = Some (Trie.p_val p).
Proof.
  intros Hs. unfold ValueGuard.deref. eapply read_allocated; [|done]. simpl. left.
Qed.

(** C10. A guard built by the constructor from a snapshot [s] and a pointer to
    a value that [s] reaches can be dereferenced whatever else is alive: the
    snapshots [others] may be the store's newer ones, or there may be none
    at all (the store is gone).  The guard's own copy of [s] keeps the cell
    allocated. *)
Theorem guard_owns_its_snapshot {T : Tag} (s : Trie.t Val) (p : Trie.ptr Val T)
    (others : list (Trie.t Val)) :
  Trie.holds (Trie.p_addr p) s = true →
  ValueGuard.root_ (ValueGuard.make s p) = s
  ∧ ValueGuard.deref others (ValueGuard.make s p) = Some (Trie.p_val p).
Proof.
  intros Hs. split; [done|]. by apply deref_make.
Qed.

End GuardFacts.
End GuardFacts.

(** ** The store, one thread on its own *)

Module StoreFacts.
Import TrieStore.
Section Sequential.
Context {Tag : Type} `{!EqDecision Tag} {Val : Tag → Type}.
Implicit Types (st : TrieStore.t Val) (th : thread Val) (c : call Val).

Lemma run_add n m me st brk th :
  run (n + m) me st brk th =
  let '(st', brk', th') := run n me st brk th in run m me st' brk' th'.
Proof.
  revert st brk th. induction n as [|n IH]; intros st brk th; simpl; [done|].
  destruct (step_thread me st brk th) as [[[st' brk'] th']|] eqn:Hs; [apply IH|].
  destruct m; simpl; [done|]. by rewrite Hs.
Qed.

(** The result of [Get<T>(key)] when [root_] holds [s] throughout. *)
Definition Get_result (T : Tag) (s : Trie.t Val) (key : string) : ret Val :=
  match Trie.Get T s key with
  | None => r_nullopt
  | Some p => r_guard T (ValueGuard.make s p)
  end.

Lemma run_Get me st brk T key rest g :
  root_lock_ st = None →
  run 6 me st brk (mkThread (call_Get T key :: rest) 0 no_locals g)
  = (st, brk, mkThread rest 0 no_locals (g ++ [Get_result T (root_ st) key])).
Proof.
  destruct st as [rl wl s]; simpl. intros ->.
  cbv -[Trie.Get app]. by destruct (Trie.Get T s key).
Qed.

Lemma run_Put me st brk T key v rest g :
  quiescent st →
  run 7 me st brk (mkThread (call_Put T key v :: rest) 0 no_locals g)
  = (set_root_ (Trie.Put (root_ st) key (Trie.mkCell brk T v)) st, S brk,
     mkThread rest 0 no_locals g).
Proof. destruct st as [rl wl s]. by intros [[= ->] [= ->]]. Qed.

Lemma run_Remove me st brk key rest g :
  quiescent st →
  run 7 me st brk (mkThread (call_Remove key :: rest) 0 no_locals g)
  = (set_root_ (Trie.Remove (root_ st) key) st, brk,
     mkThread rest 0 no_locals g).
Proof. destruct st as [rl wl s]. by intros [[= ->] [= ->]]. Qed.

Lemma quiescent_set_root_ s st : quiescent st → quiescent (set_root_ s st).
Proof. done. Qed.

(** C5. Round trip: on a store where no mutex is held, [Put(k, v)] followed
    by [Get<T>(k)] (T the type of [v]) runs to completion and returns a guard
    whose dereference is [v], whatever else is alive. *)
Theorem Put_Get_round_trip me st brk T k (v : Val T) :
  quiescent st →
  ∃ st' brk' g,
    run_calls me [call_Put T k v; call_Get T k] st brk
    = (st', brk', mkThread [] 0 no_locals [r_guard T g])
    ∧ ∀ others, ValueGuard.deref others g = Some v.
Proof.
  intros Hq. unfold run_calls, spawn.
  change (steps_of _) with (7 + 6). rewrite run_add, run_Put by done.
  rewrite run_Get by apply Hq. simpl. unfold Get_result.
  rewrite TrieFacts.Get_slot, TrieFacts.slot_Put.
  rewrite decide_True by done. simpl. rewrite TrieFacts.as_type_same.
  eexists _, _, _. split; [done|]. intros others.
  apply (GuardFacts.deref_make _ (Trie.mkPtr brk v)).
  apply (TrieFacts.slot_holds _ k (Trie.mkCell brk T v)).
  rewrite TrieFacts.slot_Put. by rewrite decide_True.
Qed.

(** C6. Deletion: on a store where no mutex is held, [Put(k, v)], then
    [Remove(k)], then [Get<T'>(k)] for any type [T'] runs to completion and
    returns [std::nullopt]. *)
Theorem Put_Remove_Get_not_found me st brk T T' k (v : Val T) :
  quiescent st →
  ∃ st' brk',
    run_calls me [call_Put T k v; call_Remove k; call_Get T' k] st brk
    = (st', brk', mkThread [] 0 no_locals [r_nullopt]).
Proof.
  intros Hq. unfold run_calls, spawn.
  change (steps_of _) with (7 + (7 + 6)).
  rewrite run_add, run_Put by done.
  rewrite run_add, run_Remove by done.
  rewrite run_Get by apply Hq. simpl. unfold Get_result.
  rewrite TrieFacts.Get_slot, TrieFacts.slot_Remove.
  rewrite decide_True by done. simpl. by eexists _, _.
Qed.

(** C7. Type isolation: on a store where no mutex is held, [Put(k, v)] with
    [v] of type [T1] followed by [Get<T2>(k)] with [T2] another type runs to
    completion (no statement gets stuck) and returns [std::nullopt]; that is
    also what [Get<T2>] returns for a key that holds nothing. *)
Theorem Get_other_type_not_found me st brk T1 T2 k (v : Val T1) :
  T1 ≠ T2 →
  quiescent st →
  (∃ st' brk',
     run_calls me [call_Put T1 k v; call_Get T2 k] st brk
     = (st', brk', mkThread [] 0 no_locals [r_nullopt]))
  ∧ (∀ k', Trie.slot (root_ st) k' = None →
           run_calls me [call_Get T2 k'] st brk
           = (st, brk, mkThread [] 0 no_locals [r_nullopt])).
Proof.
  intros Hne Hq. unfold run_calls, spawn. split.
  - change (steps_of _) with (7 + 6). rewrite run_add, run_Put by done.
    rewrite run_Get by apply Hq. simpl. unfold Get_result.
    rewrite TrieFacts.Get_slot, TrieFacts.slot_Put.
    rewrite decide_True by done. simpl.
    rewrite TrieFacts.as_type_other by done. by eexists _, _.
  - intros k' Habs. change (steps_of _) with 6.
    rewrite run_Get by apply Hq. simpl. unfold Get_result.
    by rewrite TrieFacts.Get_slot, Habs.
Qed.

(** C8. [Remove(k)] on a store where no mutex is held always runs to
    completion.  When [k] holds no value, the content of the new current
    snapshot is that of the old one at every key, every [Get] finds what it
    found before, and a snapshot built by [Put] and [Remove] is even left
    equal as a tree. *)
Theorem Remove_absent_is_noop me st brk k :
  quiescent st →
  ∃ st',
    run_calls me [call_Remove k] st brk = (st', brk, mkThread [] 0 no_locals [])
    ∧ quiescent st'
    ∧ (Trie.slot (root_ st) k = None →
       (∀ k', Trie.slot (root_ st') k' = Trie.slot (root_ st) k')
       ∧ (∀ me' brk' T k',
            found <$> got (run_calls me' [call_Get T k'] st' brk').2
            = found <$> got (run_calls me' [call_Get T k'] st brk').2)
       ∧ (Trie.wf (root_ st) → root_ st' = root_ st)).
Proof.
  intros Hq. unfold run_calls at 1, spawn.
  change (steps_of _) with 7. rewrite run_Remove by done.
  eexists. split; [done|]. split; [done|]. intros Habs.
  assert (∀ k', Trie.slot (Trie.Remove (root_ st) k) k' = Trie.slot (root_ st) k')
    as Hsame.
  { intros k'. rewrite TrieFacts.slot_Remove. case_decide; congruence. }
  split; [done|]. split.
  - intros me' brk' T k'. unfold run_calls, spawn. change (steps_of _) with 6.
    rewrite !run_Get by apply Hq. simpl. unfold Get_result.
    rewrite !TrieFacts.Get_slot, Hsame.
    by destruct (Trie.slot (root_ st) k' ≫= Trie.as_type T).
  - intros Hwf. simpl. by apply TrieFacts.Remove_absent.
Qed.

Lemma exec_root_ me stm st brk l g st' brk' l' g' :
  exec me stm st brk l g = Some (st', brk', l', g') →
  is_publish stm = false → root_ st' = root_ st.
Proof.
  destruct st as [rl wl s].
  destruct stm as [m|m| | | | | |]; simpl; intros Hs Hp; try done.
  - destruct m; simpl in Hs; [destruct rl|destruct wl]; by simplify_eq.
  - destruct m; by simplify_eq.
  - by simplify_eq.
  - destruct (cur l); by simplify_eq/=.
  - destruct (cur l); by simplify_eq/=.
  - by simplify_eq.
  - by simplify_eq.
Qed.

Lemma step_thread_inv me st brk th st' brk' th' :
  step_thread me st brk th = Some (st', brk', th') →
  ∃ c rest, todo th = c :: rest
    ∧ match body c !! pc th with
      | Some stm => ∃ l' g', exec me stm st brk (vars th) (got th) = Some (st', brk', l', g')
                             ∧ th' = mkThread (todo th) (S (pc th)) l' g'
      | None => st' = st ∧ brk' = brk ∧ th' = mkThread rest 0 no_locals (got th)
      end.
Proof.
  unfold step_thread. destruct (todo th) as [|c rest]; [done|].
  intros Hs. exists c, rest. split; [done|].
  destruct (body c !! pc th) as [stm|]; [|by simplify_eq].
  destruct (exec me stm st brk (vars th) (got th)) as [[[[st1 brk1] l1] g1]|];
    simpl in Hs; [|done].
  simplify_eq. by eexists _, _.
Qed.

(** C9. A step of a thread inside [Get] leaves [root_] as it is; a step that
    changes [root_] is the store into [root_] of a [Put] or a [Remove]. *)
Theorem Get_never_replaces_root_ me st brk th st' brk' th' :
  step_thread me st brk th = Some (st', brk', th') →
  (∀ T key, head (todo th) = Some (call_Get T key) → root_ st' = root_ st)
  ∧ (root_ st' ≠ root_ st →
     ∃ c, head (todo th) = Some c ∧ is_writer c = true
          ∧ next_stmt th = Some s_assign_root_).
Proof.
  intros (c & rest & Htodo & Hs)%step_thread_inv.
  unfold next_stmt. rewrite Htodo; simpl.
  destruct (body c !! pc th) as [stm|] eqn:Hstm.
  - destruct Hs as (l' & g' & He & _).
    destruct (is_publish stm) eqn:Hp.
    + destruct stm; try done. split.
      * intros T key [= ->]. revert Hstm. generalize (pc th). intros n.
        by do 5 (try destruct n as [|n]).
      * intros _. exists c. split; [done|]. split; [|done].
        destruct c; [|done..]. revert Hstm. generalize (pc th). intros n.
        by do 5 (try destruct n as [|n]).
    + pose proof (exec_root_ _ _ _ _ _ _ _ _ _ _ He Hp) as Heq.
      split; [done|]. by intros [].
  - destruct Hs as (-> & _). split; [done|]. by intros [].
Qed.

(** Sequentially: a call of [Get] on a store whose root lock is free returns
    and leaves the whole store as it was. *)
Lemma Get_leaves_store me st brk T key :
  root_lock_ st = None →
  (run_calls me [call_Get T key] st brk).1.1 = st.
Proof.
  intros Hq. unfold run_calls, spawn. change (steps_of _) with 6.
  by rewrite run_Get.
Qed.

(** A guard returned by [Get] when nothing interferes holds the snapshot
    that the value was found in, so it can be dereferenced whatever happens
    to the store afterwards. *)
Lemma Get_result_guard_valid T s key g others :
  Get_result T s key = r_guard T g →
  ValueGuard.root_ g = s
  ∧ Trie.holds (Trie.p_addr (ValueGuard.value_ g)) s = true
  ∧ ∃ v, ValueGuard.deref others g = Some v.
Proof.
  unfold Get_result. destruct (Trie.Get T s key) as [p|] eqn:Hp; [|done].
  intros Hg. assert (g = ValueGuard.make s p) as ->.
  { injection Hg as Hg. by apply Eqdep_dec.inj_pair2_eq_dec in Hg. }
  pose proof (TrieFacts.Get_holds _ _ _ _ Hp) as Hh.
  split; [done|]. split; [done|]. eexists. by apply GuardFacts.deref_make.
Qed.

End Sequential.

(** ** The store, threads side by side *)

Section Concurrent.
Context {Tag : Type} `{!EqDecision Tag} {Val : Tag → Type}.
Implicit Types (st : TrieStore.t Val) (th : thread Val) (c : call Val)
  (σ : state Val).

(** Case analysis on the position of a thread: the call in progress and its
    program counter, statement by statement. *)
Ltac positions th :=
  let c := fresh "c" in let n := fresh "n" in
  destruct th as [[|c ?] n ? ?];
  [ | destruct c; do 7 (try destruct n as [|n]) ].

Lemma holding_spawn m (cs : list (call Val)) : holding m (spawn cs) = false.
Proof. unfold holding, spawn; simpl. by destruct cs. Qed.

Lemma compute_publish_holding th :
  in_compute_publish th = true →
  holding RootLock th = true ∧ holding WriteLock th = true.
Proof. positions th; by cbv. Qed.

Lemma publish_compute_publish th :
  next_stmt th = Some s_assign_root_ → in_compute_publish th = true.
Proof. unfold in_compute_publish. by intros ->. Qed.

Lemma inv_init s0 brk0 (progs : list (list (call Val))) : inv (init s0 brk0 progs).
Proof.
  intros i th Hth. simpl in Hth.
  apply list_lookup_fmap_Some in Hth as (cs & -> & _).
  split.
  - unfold lock_inv, init, store, root_lock_, write_lock_.
    rewrite !holding_spawn. by split; split.
  - intros c Hc Hn. unfold next_stmt in Hn. rewrite Hc in Hn.
    by destruct c.
Qed.

Lemma holding_start m (rest : list (call Val)) l g :
  holding m (mkThread rest 0 l g) = false.
Proof. unfold holding; simpl. by destruct rest. Qed.

Lemma next_stmt_start (rest : list (call Val)) l g :
  next_stmt (mkThread rest 0 l g) ≠ Some s_assign_root_.
Proof. destruct rest as [|c ?]; [done|]. by destruct c. Qed.

(** The thread that moves keeps its own part of the invariant. *)
Lemma step_self i st brk th st' brk' th' :
  lock_inv i st th → rhs_inv st th →
  step_thread i st brk th = Some (st', brk', th') →
  lock_inv i st' th' ∧ rhs_inv st' th'.
Proof.
  destruct st as [rl wl s]. unfold lock_inv, rhs_inv.
  positions th;
    match goal with l : locals Val |- _ => destruct l as [[]? []] end;
    cbn; intros [Hr Hw] Hrhs Hs.
  all: repeat case_match; simplify_option_eq.
  all: cbn; rewrite ?holding_start.
  all: split;
    [split; first [tauto | split; congruence] |].
  all: try (by intros ? [= <-] [=]).
  all: try (by intros ? _ ?%next_stmt_start).
  all: intros ? [= <-] _; first [by exists 0 | by eexists].
Qed.

(** What a statement does to the store. *)
Lemma exec_store i stm st brk l g st' brk' l' g' :
  exec i stm st brk l g = Some (st', brk', l', g') →
  match stm with
  | s_lock m => owner m st = None ∧ st' = set_owner m (Some i) st
  | s_unlock m => st' = set_owner m None st
  | s_assign_root_ => ∃ s', st' = set_root_ s' st
  | _ => st' = st
  end.
Proof.
  destruct stm as [m|m| | | | | |]; simpl; intros Hs.
  - destruct (owner m st); by simplify_eq.
  - by simplify_eq.
  - by simplify_eq.
  - destruct (cur l); by simplify_eq/=.
  - destruct (cur l); by simplify_eq/=.
  - by simplify_eq.
  - by simplify_eq.
  - destruct (rhs l) as [s'|]; simplify_eq/=. by exists s'.
Qed.

Lemma unlock_holding th m :
  next_stmt th = Some (s_unlock m) → holding m th = true.
Proof. positions th; destruct m; by cbv. Qed.

Lemma lock_inv_owner i st th m :
  lock_inv i st th → (owner m st = Some i ↔ holding m th = true).
Proof. intros [Hr Hw]. by destruct m. Qed.

Lemma rhs_inv_set_owner m o st th :
  rhs_inv st th → rhs_inv (set_owner m o st) th.
Proof. by destruct m. Qed.

Lemma lock_inv_set_owner j m o st th :
  lock_inv j st th → owner m st ≠ Some j → o ≠ Some j →
  lock_inv j (set_owner m o st) th.
Proof.
  destruct m; unfold lock_inv; simpl; intros [Hr Hw] Hn Ho;
    (split; [|done]) || (split; [done|]);
    (split; [congruence|]); intros Hh.
  - by apply Hr in Hh.
  - by apply Hw in Hh.
Qed.

(** The threads that do not move keep theirs. *)
Lemma step_other i j st brk th thj st' brk' th' :
  i ≠ j →
  lock_inv i st th → lock_inv j st thj → rhs_inv st thj →
  step_thread i st brk th = Some (st', brk', th') →
  lock_inv j st' thj ∧ rhs_inv st' thj.
Proof.
  intros Hij Hi Hj Hjrhs (c & rest & Htodo & Hs)%step_thread_inv.
  destruct (body c !! pc th) as [stm|] eqn:Hstm; [|by destruct Hs as (-> & _)].
  destruct Hs as (l' & g' & He%exec_store & _).
  assert (next_stmt th = Some stm) as Hnext.
  { unfold next_stmt. by rewrite Htodo. }
  destruct stm as [m|m| | | | | |]; try by subst st'.
  - (* m.lock() *)
    destruct He as [Hfree ->]. split; [|by apply rhs_inv_set_owner].
    apply lock_inv_set_owner; [done|congruence|congruence].
  - (* m.unlock() *)
    subst st'. split; [|by apply rhs_inv_set_owner].
    apply lock_inv_set_owner; [done| |done].
    apply unlock_holding, (lock_inv_owner i st th m Hi) in Hnext. congruence.
  - (* root_ = ... *)
    destruct He as [s' ->]. split; [done|].
    intros c' _ Hn. exfalso.
    apply publish_compute_publish, compute_publish_holding in Hn as [_ Hn].
    apply publish_compute_publish, compute_publish_holding in Hnext as [_ Hmine].
    apply Hj in Hn. apply Hi in Hmine. congruence.
Qed.

Lemma inv_step σ i σ' : inv σ → step σ i = Some σ' → inv σ'.
Proof.
  intros Hinv Hs. unfold step in Hs.
  destruct (threads σ !! i) as [th|] eqn:Hth; simpl in Hs; [|done].
  destruct (step_thread i (store σ) (brk σ) th) as [[[st' brk'] th']|] eqn:Hst;
    simpl in Hs; [|done].
  injection Hs as <-. intros j thj Hj. simpl in *.
  destruct (Hinv i th Hth) as [Hli Hri].
  destruct (decide (i = j)) as [<-|Hne].
  - rewrite list_lookup_insert_eq in Hj by (by eapply lookup_lt_Some).
    injection Hj as <-. by eapply step_self.
  - rewrite list_lookup_insert_ne in Hj by done.
    destruct (Hinv j thj Hj). by eapply step_other.
Qed.

Lemma inv_run_sched sched σ σ' : inv σ → run_sched sched σ = Some σ' → inv σ'.
Proof.
  revert σ. induction sched as [|i sched IH]; intros σ Hinv; simpl.
  - by intros [= <-].
  - destruct (step σ i) as [σ1|] eqn:Hs; simpl; [|done].
    apply IH. by eapply inv_step.
Qed.

Lemma inv_reachable s0 brk0 (progs : list (list (call Val))) σ :
  reachable (init s0 brk0 progs) σ → inv σ.
Proof. intros [sched Hs]. eapply inv_run_sched; [apply inv_init|done]. Qed.

(** The order of the two mutexes in a writer, read off its position. *)
Lemma writer_lock_order th c :
  head (todo th) = Some c → is_writer c = true →
  (next_stmt th = Some (s_lock RootLock) → holding WriteLock th = true)
  ∧ (holding RootLock th = true → holding WriteLock th = true)
  ∧ (next_stmt th = Some (s_unlock WriteLock) → holding RootLock th = false).
Proof.
  positions th; cbv; intros Hc Hw; simplify_eq;
    repeat split; intros; by simplify_eq.
Qed.

(** C3, as the code has it. In every state that threads calling [Get], [Put]
    and [Remove] can reach, a thread about to run the tree construction of a
    [Put] or a [Remove], or the store into [root_] that follows it, holds
    both [write_lock_] and [root_lock_]: the critical section of the root
    lock covers the construction as well as the swap.  The two mutexes are
    nested: a writer about to run [root_lock_.lock()] already holds
    [write_lock_], a writer that holds [root_lock_] holds [write_lock_] too,
    and a writer about to run [write_lock_.unlock()] has released
    [root_lock_]. *)
Theorem construction_inside_root_lock s0 brk0 (progs : list (list (call Val))) σ i th :
  reachable (init s0 brk0 progs) σ →
  threads σ !! i = Some th →
  (in_compute_publish th = true →
     root_lock_ (store σ) = Some i ∧ write_lock_ (store σ) = Some i)
  ∧ (∀ c, head (todo th) = Some c → is_writer c = true →
       (next_stmt th = Some (s_lock RootLock) → write_lock_ (store σ) = Some i)
       ∧ (root_lock_ (store σ) = Some i → write_lock_ (store σ) = Some i)
       ∧ (next_stmt th = Some (s_unlock WriteLock) →
          root_lock_ (store σ) ≠ Some i)).
Proof.
  intros Hinv%inv_reachable Hth.
  destruct (Hinv i th Hth) as [[Hlr Hlw] _]. split.
  - intros [Hr Hw]%compute_publish_holding. split; [by apply Hlr|by apply Hlw].
  - intros c Hc Hwr.
    destruct (writer_lock_order th c Hc Hwr) as (Hfirst & Hnest & Hlast).
    split; [|split].
    + intros Hn. by apply Hlw, Hfirst.
    + intros Hown. by apply Hlw, Hnest, Hlr.
    + intros Hn Hown. apply Hlr in Hown. by rewrite (Hlast Hn) in Hown.
Qed.

(** C4. Writers are serialized.  In every reachable state at most one thread
    is inside the critical section of [write_lock_]; the tree construction
    and the store into [root_] of every [Put] and [Remove] lie inside it;
    and a step that changes [root_] installs what the call of the writer
    makes of the snapshot that [root_] held just before the step, which is
    the one the previous writer published. *)
Theorem writers_serialized s0 brk0 (progs : list (list (call Val))) σ :
  reachable (init s0 brk0 progs) σ →
  (∀ i j thi thj,
     threads σ !! i = Some thi → threads σ !! j = Some thj →
     holding WriteLock thi = true → holding WriteLock thj = true → i = j)
  ∧ (∀ i th, threads σ !! i = Some th →
             in_compute_publish th = true → holding WriteLock th = true)
  ∧ (∀ i σ', step σ i = Some σ' →
       root_ (store σ') = root_ (store σ)
       ∨ ∃ th c a, threads σ !! i = Some th ∧ head (todo th) = Some c
                   ∧ is_writer c = true
                   ∧ root_ (store σ') = write_result c (root_ (store σ)) a).
Proof.
  intros Hinv%inv_reachable. split; [|split].
  - intros i j thi thj Hi Hj Hhi Hhj.
    destruct (Hinv i thi Hi) as [[_ Hwi] _], (Hinv j thj Hj) as [[_ Hwj] _].
    apply Hwi in Hhi. apply Hwj in Hhj. congruence.
  - intros i th _ Hcp. by apply compute_publish_holding.
  - intros i σ' Hs. unfold step in Hs.
    destruct (threads σ !! i) as [th|] eqn:Hth; simpl in Hs; [|done].
    destruct (step_thread i (store σ) (brk σ) th) as [[[st' brk'] th']|] eqn:Hst;
      simpl in Hs; [|done].
    injection Hs as <-. simpl.
    destruct (Hinv i th Hth) as [_ Hrhs].
    apply step_thread_inv in Hst as (c & rest & Htodo & Hst).
    destruct (body c !! pc th) as [stm|] eqn:Hstm; [|left; by destruct Hst as (-> & _)].
    destruct Hst as (l' & g' & He & _).
    destruct (is_publish stm) eqn:Hp; [|left; by eapply exec_root_].
    destruct stm; try done. right.
    destruct (Hrhs c) as [a Ha].
    { by rewrite Htodo. }
    { unfold next_stmt. by rewrite Htodo. }
    exists th, c, a. split; [done|]. split; [by rewrite Htodo|].
    split.
    + destruct c; [|done..]. revert Hstm. generalize (pc th). intros n.
      by do 5 (try destruct n as [|n]).
    + simpl in He. rewrite Ha in He. simpl in He. by simplify_eq.
Qed.

End Concurrent.
End StoreFacts.

(** ** The scenarios *)

Module ScenarioFacts.
Import TrieStore Scenario.

(** Closed goals about runs of the machine: evaluate both sides. *)
Ltac evaluate :=
  repeat match goal with |- _ ∧ _ => split end; vm_compute; reflexivity.

(** C1. [Get] does not look up in the snapshot that was current while it
    held the root lock.  The store is empty; the reader takes the lock, binds
    [cur] and releases the lock; the writer then runs [Put("a", 1)] to its
    end; the reader's lookup, which goes through [cur] to [root_], finds the
    value that the writer has stored since. *)
Theorem Get_lookup_sees_later_Put :
  ∃ σ1 σ2 : state,
    run_sched sched_until_unlock reader_and_Put = Some σ1
    ∧ root_lock_ (store σ1) = None
    ∧ root_ (store σ1) = Trie.empty
    ∧ Trie.Get t_uint32 (root_ (store σ1)) "a" = None
    ∧ run_sched (sched_writer ++ [0; 0; 0]) σ1 = Some σ2
    ∧ (fmap found ∘ got) <$> threads σ2
      = [[Some (existT t_uint32 (Trie.mkPtr (T := t_uint32) 0 1%Z))]; []].
Proof.
  exists (default reader_and_Put (run_sched sched_until_unlock reader_and_Put)).
  exists (default reader_and_Put
            (run_sched (sched_until_unlock ++ sched_writer ++ [0; 0; 0])
                       reader_and_Put)).
  evaluate.
Qed.

(** C2. A guard returned by [Get] can hold a snapshot other than the one the
    value was found in.  The store holds ["a"]; the reader runs [Get] up to
    and including the lookup, which finds the value; the writer runs
    [Remove("a")] to its end, the old snapshot loses its last owner; the
    reader builds the guard from [cur], that is from the new content of
    [root_].  The guard's snapshot does not reach the value, nothing else
    does, and the dereference has no defined result. *)
Theorem guard_dangles_after_racing_Remove :
  ∃ (σ : state) (g : ValueGuard.t den t_uint32),
    run_sched ([0; 0; 0; 0] ++ sched_writer ++ [0]) reader_and_Remove = Some σ
    ∧ got <$> threads σ = [[r_guard t_uint32 g]; []]
    ∧ Trie.Get t_uint32 one_key "a" = Some (ValueGuard.value_ g)
    ∧ ValueGuard.root_ g = Trie.Remove one_key "a"
    ∧ Trie.holds (Trie.p_addr (ValueGuard.value_ g)) (ValueGuard.root_ g) = false
    ∧ ValueGuard.deref (owners σ) g = None.
Proof.
  exists (default reader_and_Remove
            (run_sched ([0; 0; 0; 0] ++ sched_writer ++ [0]) reader_and_Remove)).
  exists (ValueGuard.make (T := t_uint32) (Trie.Remove one_key "a")
            (Trie.mkPtr (T := t_uint32) 0 1%Z)).
  evaluate.
Qed.

(** C3, as stated, fails: after [write_lock_.lock()] and [root_lock_.lock()]
    the writer is about to build the new tree and holds the root lock. *)
Lemma Put_constructs_under_root_lock :
  ¬ construction_outside_root_lock two_writers.
Proof.
  intros Hclaim.
  apply (Hclaim (default two_writers (run_sched [0; 0] two_writers)) 0
           (mkThread [call_Put t_uint32 "a" 1%Z] 2 no_locals [])
           (s_eval_Put t_uint32 "a" 1%Z)).
  - exists [0; 0]. vm_compute; reflexivity.
  - vm_compute; reflexivity.
  - reflexivity.
  - reflexivity.
  - vm_compute; reflexivity.
Qed.

(** *** The theorems at concrete inputs *)

Lemma guard_owns_its_snapshot_witness :
  Trie.holds (Trie.p_addr ptr_a) one_key = true
  ∧ ValueGuard.root_ (ValueGuard.make one_key ptr_a) = one_key
  ∧ ValueGuard.deref [] (ValueGuard.make one_key ptr_a) = Some 1%Z.
Proof.
  split; [vm_compute; reflexivity|].
  apply (GuardFacts.guard_owns_its_snapshot one_key ptr_a []).
  vm_compute; reflexivity.
Defined.

Lemma Put_Get_round_trip_witness :
  quiescent fresh_store
  ∧ ∃ st' brk' g,
      run_calls 0 [call_Put t_uint32 "a" 1%Z; call_Get t_uint32 "a"] fresh_store 0
      = (st', brk', mkThread [] 0 no_locals [r_guard t_uint32 g])
      ∧ ∀ others, ValueGuard.deref others g = Some 1%Z.
Proof.
  split; [split; reflexivity|].
  apply (StoreFacts.Put_Get_round_trip 0 fresh_store 0 t_uint32 "a" 1%Z).
  split; reflexivity.
Defined.

Lemma Put_Remove_Get_not_found_witness :
  quiescent fresh_store
  ∧ ∃ st' brk',
      run_calls 0 [call_Put t_uint32 "a" 1%Z; call_Remove "a"; call_Get t_uint32 "a"]
                fresh_store 0
      = (st', brk', mkThread [] 0 no_locals [r_nullopt]).
Proof.
  split; [split; reflexivity|].
  apply (StoreFacts.Put_Remove_Get_not_found 0 fresh_store 0 t_uint32 t_uint32 "a" 1%Z).
  split; reflexivity.
Defined.

Lemma Get_other_type_not_found_witness :
  t_uint32 ≠ t_string
  ∧ quiescent fresh_store
  ∧ (∃ st' brk',
       run_calls 0 [call_Put t_uint32 "a" 1%Z; call_Get t_string "a"] fresh_store 0
       = (st', brk', mkThread [] 0 no_locals [r_nullopt]))
  ∧ (∀ k', Trie.slot (root_ fresh_store) k' = None →
           run_calls 0 [call_Get t_string k'] fresh_store 0
           = (fresh_store, 0, mkThread [] 0 no_locals [r_nullopt])).
Proof.
  split; [discriminate|]. split; [split; reflexivity|].
  apply (StoreFacts.Get_other_type_not_found 0 fresh_store 0 t_uint32 t_string "a" 1%Z).
  - discriminate.
  - split; reflexivity.
Defined.

Lemma Remove_absent_is_noop_witness :
  quiescent store_one_key
  ∧ ∃ st',
      run_calls 0 [call_Remove "b"] store_one_key 1
      = (st', 1, mkThread [] 0 no_locals [])
      ∧ quiescent st'
      ∧ (Trie.slot (root_ store_one_key) "b" = None →
         (∀ k', Trie.slot (root_ st') k' = Trie.slot (root_ store_one_key) k')
         ∧ (∀ me' brk' T k',
              found <$> got (run_calls me' [call_Get T k'] st' brk').2
              = found <$> got (run_calls me' [call_Get T k'] store_one_key brk').2)
         ∧ (Trie.wf (root_ store_one_key) → root_ st' = root_ store_one_key)).
Proof.
  split; [split; reflexivity|].
  apply (StoreFacts.Remove_absent_is_noop 0 store_one_key 1 "b").
  split; reflexivity.
Defined.

Lemma Get_never_replaces_root__witness :
  step_thread 0 store_one_key 1 (spawn [call_Get t_uint32 "a"])
  = Some (mk (Some 0) None one_key, 1,
          mkThread [call_Get t_uint32 "a"] 1 no_locals [])
  ∧ (∀ T key, head [call_Get (Val := den) t_uint32 "a"] = Some (call_Get T key) →
              one_key = one_key)
  ∧ (one_key ≠ one_key →
     ∃ c, head [call_Get (Val := den) t_uint32 "a"] = Some c ∧ is_writer c = true
          ∧ next_stmt (spawn [call_Get (Val := den) t_uint32 "a"])
            = Some s_assign_root_).
Proof.
  split; [reflexivity|].
  apply (StoreFacts.Get_never_replaces_root_ 0 store_one_key 1
           (spawn [call_Get t_uint32 "a"])
           (mk (Some 0) None one_key) 1
           (mkThread [call_Get t_uint32 "a"] 1 no_locals [])).
  reflexivity.
Defined.

(** The first writer after [write_lock_.lock()] and [root_lock_.lock()]. *)
Lemma construction_inside_root_lock_witness :
  let σ := default two_writers (run_sched [0; 0] two_writers) in
  let th := mkThread [call_Put t_uint32 "a" 1%Z] 2 no_locals [] in
  reachable two_writers σ
  ∧ threads σ !! 0 = Some th
  ∧ (in_compute_publish th = true →
       root_lock_ (store σ) = Some 0 ∧ write_lock_ (store σ) = Some 0)
  ∧ (∀ c, head (todo th) = Some c → is_writer c = true →
       (next_stmt th = Some (s_lock RootLock) → write_lock_ (store σ) = Some 0)
       ∧ (root_lock_ (store σ) = Some 0 → write_lock_ (store σ) = Some 0)
       ∧ (next_stmt th = Some (s_unlock WriteLock) →
          root_lock_ (store σ) ≠ Some 0)).
Proof.
  intros σ th.
  assert (reachable two_writers σ) as Hreach.
  { exists [0; 0]. vm_compute; reflexivity. }
  assert (threads σ !! 0 = Some th) as Hth.
  { vm_compute; reflexivity. }
  split; [exact Hreach|]. split; [exact Hth|].
  exact (StoreFacts.construction_inside_root_lock
           Trie.empty 0 _ σ 0 th Hreach Hth).
Defined.

Lemma writers_serialized_witness :
  let σ := default two_writers (run_sched [0; 0] two_writers) in
  reachable two_writers σ
  ∧ (∀ i j thi thj,
       threads σ !! i = Some thi → threads σ !! j = Some thj →
       holding WriteLock thi = true → holding WriteLock thj = true → i = j)
  ∧ (∀ i th, threads σ !! i = Some th →
             in_compute_publish th = true → holding WriteLock th = true)
  ∧ (∀ i σ', step σ i = Some σ' →
       root_ (store σ') = root_ (store σ)
       ∨ ∃ th c a, threads σ !! i = Some th ∧ head (todo th) = Some c
                   ∧ is_writer c = true
                   ∧ root_ (store σ') = write_result c (root_ (store σ)) a).
Proof.
  intros σ.
  assert (reachable two_writers σ) as Hreach.
  { exists [0; 0]. vm_compute; reflexivity. }
  split; [exact Hreach|].
  exact (StoreFacts.writers_serialized Trie.empty 0 _ σ Hreach).
Defined.

End ScenarioFacts.

(** * Further properties of the store *)

(** ** One thread on its own: composition of calls *)

Module CallFacts.
Import TrieStore.
Section CallFacts.
Context {Tag : Type} `{!EqDecision Tag} {Val : Tag → Type}.
Implicit Types (st : TrieStore.t Val) (th : thread Val) (c : call Val)
  (cs : list (call Val)).

Lemma run_call me c rest st brk g0 :
  quiescent st →
  ∃ brk' g',
    run (S (length (body c))) me st brk (mkThread (c :: rest) 0 no_locals g0)
    = (store_after c st brk, brk', mkThread rest 0 no_locals (g0 ++ g'))
    ∧ length g' = (if is_Get c then 1 else 0)
    ∧ (∀ T key, c = call_Get T key →
                g' = [StoreFacts.Get_result T (root_ st) key]).
Proof.
  intros Hq. destruct c as [T key|T key v|key]; simpl length.
  - exists brk, [StoreFacts.Get_result T (root_ st) key].
    rewrite StoreFacts.run_Get by apply Hq. split; [done|]. split; [done|].
    by intros ?? [= <- <-].
  - exists (S brk), []. rewrite StoreFacts.run_Put by done.
    by rewrite app_nil_r.
  - exists brk, []. rewrite StoreFacts.run_Remove by done.
    by rewrite app_nil_r.
Qed.

Lemma quiescent_store_after c st brk : quiescent st → quiescent (store_after c st brk).
Proof. by destruct c. Qed.

Lemma run_all me cs st brk g0 :
  quiescent st →
  ∃ st' brk' g',
    run (steps_of cs) me st brk (mkThread cs 0 no_locals g0)
    = (st', brk', mkThread [] 0 no_locals (g0 ++ g'))
    ∧ quiescent st'
    ∧ length g' = length (List.filter is_Get cs).
Proof.
  revert st brk g0. induction cs as [|c cs IH]; intros st brk g0 Hq.
  - exists st, brk, []. by rewrite app_nil_r.
  - change (steps_of (c :: cs)) with (S (length (body c)) + steps_of cs).
    rewrite StoreFacts.run_add.
    destruct (run_call me c cs st brk g0 Hq) as (brk1 & g1 & -> & Hlen & _).
    destruct (IH (store_after c st brk) brk1 (g0 ++ g1)) as (st' & brk' & g' & -> & Hq' & Hlen').
    { by apply quiescent_store_after. }
    exists st', brk', (g1 ++ g'). rewrite app_assoc. split; [done|].
    split; [done|]. rewrite length_app, Hlen, Hlen'. simpl.
    by destruct (is_Get c).
Qed.

(** Whatever calls a thread makes one after the other on a store where no
    mutex is held, every call returns, both mutexes are free again at the
    end, and the thread has received one result per call of [Get]. *)
Theorem calls_return me cs st brk :
  quiescent st →
  ∃ st' brk' g,
    run_calls me cs st brk = (st', brk', mkThread [] 0 no_locals g)
    ∧ quiescent st'
    ∧ length g = length (List.filter is_Get cs).
Proof.
  intros Hq. unfold run_calls, spawn.
  destruct (run_all me cs st brk [] Hq) as (st' & brk' & g' & Hrun & Hq' & Hlen).
  by exists st', brk', g'.
Qed.

(** Overwrite: [Put(k, v1)], then [Put(k, v2)], then [Get<T2>(k)] with [T2]
    the type of [v2] returns a guard whose dereference is [v2], whatever the
    type of [v1]. *)
Theorem Put_Put_Get_overwrites me st brk T1 T2 k (v1 : Val T1) (v2 : Val T2) :
  quiescent st →
  ∃ st' brk' g,
    run_calls me [call_Put T1 k v1; call_Put T2 k v2; call_Get T2 k] st brk
    = (st', brk', mkThread [] 0 no_locals [r_guard T2 g])
    ∧ ∀ others, ValueGuard.deref others g = Some v2.
Proof.
  intros Hq. unfold run_calls, spawn.
  change (steps_of _) with (7 + (7 + 6)).
  rewrite StoreFacts.run_add, StoreFacts.run_Put by done.
  rewrite StoreFacts.run_add, StoreFacts.run_Put by done.
  rewrite StoreFacts.run_Get by apply Hq. simpl. unfold StoreFacts.Get_result.
  rewrite TrieFacts.Get_slot, TrieFacts.slot_Put.
  rewrite decide_True by done. simpl. rewrite TrieFacts.as_type_same.
  eexists _, _, _. split; [done|]. intros others.
  apply (GuardFacts.deref_make _ (Trie.mkPtr (S brk) v2)).
  apply (TrieFacts.slot_holds _ k (Trie.mkCell (S brk) T2 v2)).
  rewrite TrieFacts.slot_Put. by rewrite decide_True.
Qed.

(** A [Put] or a [Remove] on one key leaves what [Get] finds under every
    other key as it was: the same absence, or the same pointer to the same
    value. *)
Theorem write_leaves_other_keys me st brk c T k' :
  quiescent st →
  is_writer c = true →
  key_of c ≠ k' →
  found <$> got (run_calls me [c; call_Get T k'] st brk).2
  = found <$> got (run_calls me [call_Get T k'] st brk).2.
Proof.
  intros Hq Hw Hne. unfold run_calls, spawn.
  change (steps_of [c; _]) with (S (length (body c)) + 6).
  change (steps_of [_]) with 6.
  rewrite StoreFacts.run_add.
  destruct (run_call me c [call_Get T k'] st brk [] Hq) as (brk1 & g1 & -> & Hlen & _).
  rewrite !StoreFacts.run_Get
    by (try apply quiescent_store_after; apply Hq).
  destruct c as [|T0 k v|k]; [done|..]; simpl in *;
    destruct g1; try done; simpl; unfold StoreFacts.Get_result;
    rewrite !TrieFacts.Get_slot.
  - rewrite TrieFacts.slot_Put, decide_False by done.
    by destruct (Trie.slot (root_ st) k' ≫= Trie.as_type T).
  - rewrite TrieFacts.slot_Remove, decide_False by done.
    by destruct (Trie.slot (root_ st) k' ≫= Trie.as_type T).
Qed.

(** Snapshot isolation for a reader that is not interrupted: the guard that
    [Get] returns for a value it finds still yields that value after any
    further calls of [Put], [Remove] and [Get], whatever they do to the
    key. *)
Theorem guard_survives_later_calls me st brk T k (p : Trie.ptr Val T) cs :
  quiescent st →
  Trie.Get T (root_ st) k = Some p →
  ∃ st' brk' g rest,
    run_calls me (call_Get T k :: cs) st brk
    = (st', brk', mkThread [] 0 no_locals (r_guard T g :: rest))
    ∧ ValueGuard.value_ g = p
    ∧ ValueGuard.root_ g = root_ st
    ∧ ∀ others, ValueGuard.deref (root_ st' :: others) g = Some (Trie.p_val p).
Proof.
  intros Hq Hp. unfold run_calls, spawn.
  change (steps_of (_ :: cs)) with (6 + steps_of cs).
  rewrite StoreFacts.run_add, StoreFacts.run_Get by apply Hq.
  unfold StoreFacts.Get_result. rewrite Hp. simpl app.
  destruct (run_all me cs st brk [r_guard T (ValueGuard.make (root_ st) p)] Hq)
    as (st' & brk' & g' & -> & _ & _).
  eexists st', brk', _, g'. split; [done|]. split; [done|]. split; [done|].
  intros others. apply GuardFacts.deref_make. by eapply TrieFacts.Get_holds.
Qed.

End CallFacts.
End CallFacts.

(** ** Threads side by side: progress, the mutexes, the history of writes *)

Module ConcurrencyFacts.
Import TrieStore.
Section ConcurrencyFacts.
Context {Tag : Type} `{!EqDecision Tag} {Val : Tag → Type}.
Implicit Types (st : TrieStore.t Val) (th : thread Val) (c : call Val)
  (σ : state Val).

Ltac positions th :=
  let c := fresh "c" in let n := fresh "n" in
  destruct th as [[|c ?] n ? ?];
  [ | destruct c; do 7 (try destruct n as [|n]) ].

(** *** Where a thread that holds a mutex can be *)

Lemma holding_in_call m th : holding m th = true → todo th ≠ [].
Proof. by destruct th as [[|c ?] n ? ?]. Qed.

Lemma holding_root_no_lock th m :
  holding RootLock th = true → next_stmt th ≠ Some (s_lock m).
Proof. positions th; by cbv. Qed.

Lemma holding_write_next_lock th m :
  holding WriteLock th = true → next_stmt th = Some (s_lock m) → m = RootLock.
Proof. positions th; cbv; try done. all: by intros _ [= <-]. Qed.

(** *** [cur] is bound where it is read, and mutexes have owners *)

Lemma cur_inv_spawn (cs : list (call Val)) : cur_inv (spawn cs).
Proof. unfold cur_inv, past_bind_cur. by destruct cs. Qed.

Lemma uses_cur_past_bind th stm :
  next_stmt th = Some stm → uses_cur stm = true → past_bind_cur th = true.
Proof. positions th; cbv; intros; by simplify_eq. Qed.

Lemma cur_inv_step i st brk th st' brk' th' :
  cur_inv th → step_thread i st brk th = Some (st', brk', th') → cur_inv th'.
Proof.
  destruct st as [rl wl s]. unfold cur_inv, past_bind_cur.
  positions th;
    match goal with l : locals Val |- _ => destruct l as [[]? ?] end;
    cbn; intros Hc Hs; repeat case_match; simplify_option_eq; cbn.
  all: try done.
  all: try (intros _; by eexists).
  all: try (by destruct Hc).
  all: match goal with l : list (call Val) |- _ => by destruct l end.
Qed.

Lemma step_threads σ i σ' :
  step σ i = Some σ' →
  ∃ th st' brk' th',
    threads σ !! i = Some th
    ∧ step_thread i (store σ) (brk σ) th = Some (st', brk', th')
    ∧ σ' = mkState st' brk' (<[i := th']> (threads σ)).
Proof.
  unfold step. destruct (threads σ !! i) as [th|] eqn:Hth; simpl; [|done].
  destruct (step_thread i (store σ) (brk σ) th) as [[[st' brk'] th']|] eqn:Hs;
    simpl; [|done].
  intros [= <-]. by exists th, st', brk', th'.
Qed.

Lemma owner_inv_step σ i σ' : owner_inv σ → step σ i = Some σ' → owner_inv σ'.
Proof.
  intros Ho (th & st' & brk' & th' & Hth & Hs & ->)%step_threads m j; simpl.
  assert (∀ k, is_Some (threads σ !! k) → is_Some (<[i:=th']> (threads σ) !! k))
    as Hkeep.
  { intros k [x Hx]. destruct (decide (i = k)) as [->|Hne].
    - rewrite list_lookup_insert_eq; [by eexists|by eapply lookup_lt_Some].
    - rewrite list_lookup_insert_ne by done. by eexists. }
  apply StoreFacts.step_thread_inv in Hs as (c & rest & _ & Hs).
  pose proof (Ho RootLock j) as HoR. pose proof (Ho WriteLock j) as HoW.
  assert (is_Some (threads σ !! i)) as Hi by (by eexists).
  clear Ho Hth. destruct (store σ) as [rl wl s]. simpl in HoR, HoW.
  destruct (body c !! pc th) as [stm|].
  - destruct Hs as (l' & g' & He%StoreFacts.exec_store & _).
    destruct stm as [m'|m'| | | | | |];
      try (subst st'; destruct m; simpl; intros; apply Hkeep; by eauto).
    + destruct He as [_ ->].
      destruct m, m'; simpl; intros Hj; apply Hkeep;
        first [by injection Hj as <- | by eauto].
    + subst st'. destruct m, m'; simpl; intros Hj; try done;
        apply Hkeep; by eauto.
    + destruct He as [s' ->]. destruct m; simpl; intros Hj; apply Hkeep; by eauto.
  - destruct Hs as (-> & _). destruct m; simpl; intros Hj; apply Hkeep; by eauto.
Qed.

Lemma cur_inv_step_all σ i σ' :
  (∀ j th, threads σ !! j = Some th → cur_inv th) →
  step σ i = Some σ' →
  ∀ j th, threads σ' !! j = Some th → cur_inv th.
Proof.
  intros Hc (th & st' & brk' & th' & Hth & Hs & ->)%step_threads j thj; simpl.
  destruct (decide (i = j)) as [<-|Hne].
  - rewrite list_lookup_insert_eq by (by eapply lookup_lt_Some).
    intros [= <-]. eapply cur_inv_step; eauto.
  - rewrite list_lookup_insert_ne by done. apply Hc.
Qed.

Lemma reachable_invariants s0 brk0 (progs : list (list (call Val))) σ :
  reachable (init s0 brk0 progs) σ →
  inv σ ∧ owner_inv σ ∧ ∀ j th, threads σ !! j = Some th → cur_inv th.
Proof.
  intros Hr. split; [by eapply StoreFacts.inv_reachable|].
  destruct Hr as [sched Hs].
  assert (owner_inv (init s0 brk0 progs)
          ∧ ∀ j th, threads (init s0 brk0 progs) !! j = Some th → cur_inv th)
    as Hinit.
  { split.
    - intros m i. by destruct m.
    - intros j th Hth. simpl in Hth.
      apply list_lookup_fmap_Some in Hth as (cs & -> & _). apply cur_inv_spawn. }
  revert Hinit Hs. generalize (init s0 brk0 progs). clear s0 brk0 progs.
  induction sched as [|i sched IH]; intros σ0 [Ho Hc]; simpl.
  - by intros [= <-].
  - destruct (step σ0 i) as [σ1|] eqn:Hs; simpl; [|done].
    apply IH. split; [by eapply owner_inv_step|by eapply cur_inv_step_all].
Qed.

(** *** Progress *)

(** A thread inside a call moves unless it waits for a mutex. *)
Lemma step_thread_enabled i st brk th :
  todo th ≠ [] → cur_inv th → rhs_inv st th →
  (∀ m, next_stmt th = Some (s_lock m) → owner m st = None) →
  is_Some (step_thread i st brk th).
Proof.
  intros Htodo Hc Hr Hfree.
  destruct (todo th) as [|c rest] eqn:Ht; [done|].
  pose proof (uses_cur_past_bind th) as Hu.
  unfold step_thread, cur_inv, rhs_inv, next_stmt in *. rewrite Ht in *.
  simpl in *. destruct (body c !! pc th) as [stm|]; [|by eexists].
  destruct stm as [m|m| |T key| |T key v|key|]; simpl; try by eexists.
  - rewrite (Hfree m eq_refl). by eexists.
  - destruct (Hc (Hu _ eq_refl eq_refl)) as [r ->]. by eexists.
  - destruct (Hc (Hu _ eq_refl eq_refl)) as [r ->]. by eexists.
  - destruct (Hr c eq_refl eq_refl) as [a ->]. by eexists.
Qed.

Lemma step_enabled σ i th :
  threads σ !! i = Some th →
  is_Some (step_thread i (store σ) (brk σ) th) → is_Some (step σ i).
Proof.
  intros Hth [[[st' brk'] th'] Hs]. unfold step. rewrite Hth; simpl.
  rewrite Hs. by eexists.
Qed.

(** No deadlock: in every state that threads calling [Get], [Put] and
    [Remove] can reach, as long as some thread has a call left to finish,
    some thread can move. *)
Theorem no_deadlock s0 brk0 (progs : list (list (call Val))) σ :
  reachable (init s0 brk0 progs) σ →
  (∃ i th, threads σ !! i = Some th ∧ todo th ≠ []) →
  ∃ i, is_Some (step σ i).
Proof.
  intros (Hinv & Ho & Hc)%reachable_invariants (i0 & th0 & Hth0 & Htodo0).
  destruct (root_lock_ (store σ)) as [i|] eqn:Hrl.
  - destruct (Ho RootLock i Hrl) as [th Hth].
    destruct (Hinv i th Hth) as [[Hr _] Hrhs]. apply Hr in Hrl.
    exists i. eapply step_enabled; [done|].
    apply step_thread_enabled; eauto using holding_in_call.
    intros m Hn. by apply holding_root_no_lock in Hn.
  - destruct (write_lock_ (store σ)) as [j|] eqn:Hwl.
    + destruct (Ho WriteLock j Hwl) as [th Hth].
      destruct (Hinv j th Hth) as [[_ Hw] Hrhs]. apply Hw in Hwl.
      exists j. eapply step_enabled; [done|].
      apply step_thread_enabled; eauto using holding_in_call.
      intros m Hn. by rewrite (holding_write_next_lock th m Hwl Hn).
    + destruct (Hinv i0 th0 Hth0) as [_ Hrhs].
      exists i0. eapply step_enabled; [done|].
      apply step_thread_enabled; eauto.
      intros m _. by destruct m.
Qed.

(** *** The mutexes *)

(** The critical sections of [root_lock_] exclude one another, those of
    readers and those of writers alike: in every reachable state at most one
    thread is between [root_lock_.lock()] and [root_lock_.unlock()]; the
    binding of [cur] and the store into [root_] lie inside. *)
Theorem root_lock_exclusive s0 brk0 (progs : list (list (call Val))) σ :
  reachable (init s0 brk0 progs) σ →
  (∀ i j thi thj,
     threads σ !! i = Some thi → threads σ !! j = Some thj →
     holding RootLock thi = true → holding RootLock thj = true → i = j)
  ∧ (∀ i th, threads σ !! i = Some th →
             next_stmt th = Some s_bind_cur ∨ next_stmt th = Some s_assign_root_ →
             root_lock_ (store σ) = Some i).
Proof.
  intros Hinv%StoreFacts.inv_reachable. split.
  - intros i j thi thj Hi Hj Hhi Hhj.
    destruct (Hinv i thi Hi) as [[Hri _] _], (Hinv j thj Hj) as [[Hrj _] _].
    apply Hri in Hhi. apply Hrj in Hhj. congruence.
  - intros i th Hth Hn. destruct (Hinv i th Hth) as [[Hr _] _]. apply Hr.
    clear -Hn. positions th; cbv in Hn |- *; by destruct Hn.
Qed.

(** No mutex is left locked: a thread at the start of a call, or with no
    call left, holds neither mutex; and when every thread has finished its
    calls, both mutexes are free. *)
Theorem locks_released s0 brk0 (progs : list (list (call Val))) σ :
  reachable (init s0 brk0 progs) σ →
  (∀ i th, threads σ !! i = Some th → pc th = 0 →
           root_lock_ (store σ) ≠ Some i ∧ write_lock_ (store σ) ≠ Some i)
  ∧ ((∀ i th, threads σ !! i = Some th → todo th = []) → quiescent (store σ)).
Proof.
  intros (Hinv & Ho & _)%reachable_invariants. split.
  - intros i th Hth Hpc. destruct (Hinv i th Hth) as [[Hr Hw] _].
    destruct th as [cs n l g]; simpl in Hpc; subst n.
    rewrite StoreFacts.holding_start in Hr, Hw.
    split; intros Hown; [by apply Hr in Hown|by apply Hw in Hown].
  - intros Hfin. split.
    + destruct (root_lock_ (store σ)) as [i|] eqn:Hrl; [|done].
      destruct (Ho RootLock i Hrl) as [th Hth].
      destruct (Hinv i th Hth) as [[Hr _] _]. apply Hr in Hrl.
      by apply holding_in_call in Hrl; rewrite (Hfin i th Hth) in Hrl.
    + destruct (write_lock_ (store σ)) as [i|] eqn:Hwl; [|done].
      destruct (Ho WriteLock i Hwl) as [th Hth].
      destruct (Hinv i th Hth) as [[_ Hw] _]. apply Hw in Hwl.
      by apply holding_in_call in Hwl; rewrite (Hfin i th Hth) in Hwl.
Qed.

(** *** The history of writes *)

(** The three kinds of step of a thread: it builds a tree, it stores into
    [root_], or it does neither. *)
Lemma step_thread_kinds i st brk th st' brk' th' :
  step_thread i st brk th = Some (st', brk', th') →
  (∃ c stm, head (todo th) = Some c ∧ next_stmt th = Some stm
            ∧ is_construction stm = true ∧ is_writer c = true
            ∧ st' = st ∧ next_stmt th' = Some s_assign_root_
            ∧ rhs (vars th') = Some (write_result c (root_ st) brk))
  ∨ (next_stmt th = Some s_assign_root_
     ∧ (∃ s, rhs (vars th) = Some s ∧ st' = set_root_ s st)
     ∧ next_stmt th' ≠ Some s_assign_root_)
  ∨ ((∀ stm, next_stmt th = Some stm →
             is_construction stm = false ∧ is_publish stm = false)
     ∧ root_ st' = root_ st
     ∧ next_stmt th' ≠ Some s_assign_root_).
Proof.
  destruct st as [rl wl s].
  positions th;
    match goal with l : locals Val |- _ => destruct l as [[]? []] end;
    cbn; intros Hs; repeat case_match; simplify_option_eq.
  all: try (left; eexists _, _; by repeat split).
  all: try (right; left; split; [done|]; split; [by eexists|done]).
  all: right; right; split; [by intros ? [= <-]|split; [done|]].
  all: try done.
  all: apply StoreFacts.next_stmt_start.
Qed.

Lemma started_construction σ i th c stm :
  threads σ !! i = Some th → head (todo th) = Some c →
  next_stmt th = Some stm → is_construction stm = true →
  started σ i = [(c, brk σ)].
Proof. intros Hth Hc Hn Hk. unfold started. by rewrite Hth, Hc, Hn, Hk. Qed.

Lemma started_other σ i th :
  threads σ !! i = Some th →
  (∀ stm, next_stmt th = Some stm → is_construction stm = false) →
  started σ i = [].
Proof.
  intros Hth Hn. unfold started. rewrite Hth.
  destruct (head (todo th)); [|done].
  destruct (next_stmt th) as [stm|]; [|done]. by rewrite (Hn stm).
Qed.

Lemma started_writers σ i : Forall (λ w, is_writer w.1 = true) (started σ i).
Proof.
  unfold started. destruct (threads σ !! i) as [th|]; [|done].
  destruct (head (todo th)) as [c|] eqn:Hc; [|done].
  destruct (next_stmt th) as [stm|] eqn:Hn; [|done].
  destruct (is_construction stm) eqn:Hk; [|done].
  constructor; [|done]. simpl. clear -Hc Hn Hk.
  positions th; cbv in Hc, Hn; simplify_eq; done.
Qed.

(** Two threads cannot both be about to store into [root_]. *)
Lemma publishing_unique σ i j thi thj :
  inv σ → threads σ !! i = Some thi → threads σ !! j = Some thj →
  in_compute_publish thi = true → in_compute_publish thj = true → i = j.
Proof.
  intros Hinv Hi Hj [_ Hwi]%StoreFacts.compute_publish_holding
    [_ Hwj]%StoreFacts.compute_publish_holding.
  destruct (Hinv i thi Hi) as [[_ Hi'] _], (Hinv j thj Hj) as [[_ Hj'] _].
  apply Hi' in Hwi. apply Hj' in Hwj. congruence.
Qed.

Lemma accounts_step σ i σ' s :
  inv σ → accounts σ s → step σ i = Some σ' →
  accounts σ' (replay s (started σ i)).
Proof.
  intros Hinv [Hpend Hroot] Hstep.
  pose proof (StoreFacts.inv_step _ _ _ Hinv Hstep) as Hinv'.
  destruct (step_threads _ _ _ Hstep)
    as (th & st' & brk' & th' & Hth & Hs & ->).
  assert (<[i:=th']> (threads σ) !! i = Some th') as Hi'.
  { apply list_lookup_insert_eq. by eapply lookup_lt_Some. }
  assert (∀ j thj, j ≠ i → <[i:=th']> (threads σ) !! j = Some thj →
                   threads σ !! j = Some thj) as Hother.
  { intros j thj Hne. by rewrite list_lookup_insert_ne. }
  destruct (step_thread_kinds _ _ _ _ _ _ _ Hs)
    as [(c & stm & Hc & Hn & Hk & _ & -> & Hn' & Hrhs)
       |[(Hn & (s1 & Hs1 & ->) & Hn')
        |(Hn & Hsame & Hn')]].
  - (* the thread builds a tree *)
    rewrite (started_construction σ i th c stm Hth Hc Hn Hk). simpl.
    assert (none_publishing σ) as Hnone.
    { intros j thj Hj Hnj.
      assert (j = i) as ->.
      { eapply (publishing_unique σ); eauto.
        - by apply StoreFacts.publish_compute_publish.
        - unfold in_compute_publish. by rewrite Hn, Hk. }
      injection (eq_trans (eq_sym Hj) Hth) as ->.
      assert (stm = s_assign_root_) as -> by congruence. done. }
    rewrite <- (Hroot Hnone). split; simpl.
    + intros j thj Hj Hnj. destruct (decide (j = i)) as [->|Hne].
      * injection (eq_trans (eq_sym Hj) Hi') as ->. done.
      * exfalso. exact (Hnone j thj (Hother j thj Hne Hj) Hnj).
    + intros Hnone'. exfalso. exact (Hnone' i th' Hi' Hn').
  - (* the thread stores into root_ *)
    rewrite (started_other σ i th Hth)
      by (intros stm Hstm; rewrite Hn in Hstm; by injection Hstm as <-).
    simpl. rewrite (Hpend i th Hth Hn) in Hs1. injection Hs1 as <-.
    split; simpl; [|done].
    intros j thj Hj Hnj. exfalso. destruct (decide (j = i)) as [->|Hne].
    + injection (eq_trans (eq_sym Hj) Hi') as ->. done.
    + apply Hne. eapply (publishing_unique σ); eauto using Hother;
        by apply StoreFacts.publish_compute_publish.
  - (* the thread does neither *)
    rewrite (started_other σ i th Hth) by (intros stm Hstm; by apply Hn).
    simpl. split; simpl.
    + intros j thj Hj Hnj. destruct (decide (j = i)) as [->|Hne].
      * injection (eq_trans (eq_sym Hj) Hi') as ->. done.
      * eauto.
    + intros Hnone'. rewrite Hsame. apply Hroot.
      intros j thj Hj Hnj. destruct (decide (j = i)) as [->|Hne].
      * injection (eq_trans (eq_sym Hj) Hth) as ->.
        by destruct (Hn _ Hnj) as [_ ?].
      * unfold none_publishing in Hnone'. apply (Hnone' j thj); [|done].
        simpl. by rewrite list_lookup_insert_ne.
Qed.

Lemma replay_app (s : Trie.t Val) ws1 ws2 :
  replay s (ws1 ++ ws2) = replay (replay s ws1) ws2.
Proof. apply foldl_app. Qed.

Lemma accounts_run sched σ σ' s :
  inv σ → accounts σ s → run_sched sched σ = Some σ' →
  accounts σ' (replay s (history sched σ))
  ∧ Forall (λ w, is_writer w.1 = true) (history sched σ).
Proof.
  revert σ s. induction sched as [|i sched IH]; intros σ s Hinv Hacc; simpl.
  - by intros [= <-].
  - destruct (step σ i) as [σ1|] eqn:Hs; simpl; [|done].
    intros Hrun. rewrite replay_app.
    destruct (IH σ1 (replay s (started σ i))) as [Hacc' Hw]; [| |done|].
    + by eapply StoreFacts.inv_step.
    + by apply accounts_step.
    + split; [done|]. apply Forall_app. split; [apply started_writers|done].
Qed.

(** The content of the store is the history of its writes.  After any
    schedule, if no writer is between its tree construction and its store
    into [root_], then [root_] holds the initial snapshot with the [Put]s and
    [Remove]s started so far applied one after the other, each one whole, in
    the order in which their tree constructions ran. *)
Theorem root_is_history s0 brk0 (progs : list (list (call Val))) sched σ :
  run_sched sched (init s0 brk0 progs) = Some σ →
  none_publishing σ →
  root_ (store σ) = replay s0 (history sched (init s0 brk0 progs))
  ∧ Forall (λ w, is_writer w.1 = true) (history sched (init s0 brk0 progs)).
Proof.
  intros Hrun Hnone.
  destruct (accounts_run sched (init s0 brk0 progs) σ s0) as [[_ Hroot] Hw];
    [apply StoreFacts.inv_init| |done|by split; [apply Hroot|]].
  split; [|done].
  intros i th Hth Hn. simpl in Hth.
  apply list_lookup_fmap_Some in Hth as (cs & -> & _).
  by apply StoreFacts.next_stmt_start in Hn.
Qed.

(** *** Readers on their own *)

Lemma step_thread_todo i st brk th st' brk' th' c :
  step_thread i st brk th = Some (st', brk', th') → c ∈ todo th' → c ∈ todo th.
Proof.
  intros (c0 & rest & Htodo & Hs)%StoreFacts.step_thread_inv.
  destruct (body c0 !! pc th) as [stm|].
  - by destruct Hs as (l' & g' & _ & ->).
  - destruct Hs as (_ & _ & ->). simpl. rewrite Htodo. by right.
Qed.

(** A step of a thread that has only calls of [Get] to do. *)
Lemma reader_step s0 i st brk th st' brk' th' :
  root_ st = s0 →
  (∀ c, c ∈ todo th → is_writer c = false) →
  reader_inv s0 th → cur_inv th →
  step_thread i st brk th = Some (st', brk', th') →
  root_ st' = s0 ∧ reader_inv s0 th'.
Proof.
  destruct st as [rl wl s]. unfold reader_inv. simpl. intros <-.
  positions th;
    match goal with l : locals Val |- _ => destruct l as [[[]|]? ?] end;
    cbn; intros Hro [Hg Hres] Hc Hs.
  all: try (by specialize (Hro _ ltac:(by left))).
  all: repeat case_match; simplify_option_eq; cbn.
  all: split; [done|].
  all: try (split; [done|]; by intros ?? ? [=]).
  all: try (split; [done|]; intros ?? [= <- <-] _; done).
  all: try (split; [done|]; intros ?? Hh Hn; exfalso; revert Hh Hn;
            match goal with l : list (call Val) |- _ => destruct l as [|[] ?] end;
            by cbv).
  all: split; [|by intros ?? ? [=]].
  all: apply Forall_app; split; [done|]; constructor; [|done].
  all: specialize (Hres _ _ eq_refl eq_refl); simpl in Hres.
  all: try done.
  destruct (Trie.Get T s key) as [q|] eqn:Hq; simpl in Hres; [|done].
  injection Hres as -> Hres.
  apply Eqdep_dec.inj_pair2_eq_dec in Hres; [subst|solve_decision].
  simpl. split; [done|]. by exists key.
Qed.

Lemma readers_inv_step s0 σ j σ' :
  readers_inv s0 σ → step σ j = Some σ' → readers_inv s0 σ'.
Proof.
  intros (Hroot & Hro & Hth) (th & st' & brk' & th' & Hj & Hs & ->)%step_threads.
  destruct (Hth j th Hj) as [Hrd Hc].
  destruct (reader_step s0 j _ _ th _ _ _ Hroot (λ c, Hro j th c Hj) Hrd Hc Hs)
    as [Hroot' Hrd'].
  split; [done|]. split.
  - intros k thk c Hk Hin. simpl in Hk.
    destruct (decide (j = k)) as [<-|Hne].
    + rewrite list_lookup_insert_eq in Hk by (by eapply lookup_lt_Some).
      injection Hk as <-. eapply (Hro j th); [done|].
      by eapply step_thread_todo.
    + rewrite list_lookup_insert_ne in Hk by done. by eapply (Hro k thk).
  - intros k thk Hk. simpl in Hk.
    destruct (decide (j = k)) as [<-|Hne].
    + rewrite list_lookup_insert_eq in Hk by (by eapply lookup_lt_Some).
      injection Hk as <-. split; [done|]. by eapply cur_inv_step.
    + rewrite list_lookup_insert_ne in Hk by done. by apply (Hth k thk).
Qed.

Lemma readers_inv_init s0 brk0 (progs : list (list (call Val))) :
  (∀ cs c, cs ∈ progs → c ∈ cs → is_writer c = false) →
  readers_inv s0 (init s0 brk0 progs).
Proof.
  intros Hro. split; [done|]. split.
  - intros i th c Hth Hc. simpl in Hth.
    apply list_lookup_fmap_Some in Hth as (cs & -> & Hcs).
    apply (Hro cs c); [|done]. apply list_elem_of_lookup. by exists i.
  - intros i th Hth. simpl in Hth.
    apply list_lookup_fmap_Some in Hth as (cs & -> & _).
    split; [|apply cur_inv_spawn]. split; [done|].
    intros T k Hc Hn. exfalso. revert Hc Hn. destruct cs as [|[] ?]; by cbv.
Qed.

(** Readers on their own.  When the threads make calls of [Get] only, then
    under any interleaving the store keeps its snapshot, and every guard a
    thread has received holds that snapshot, points to what a lookup in it
    finds under some key, and yields that value when dereferenced, whatever
    else is alive. *)
Theorem readers_only_guards_valid s0 brk0 (progs : list (list (call Val)))
    σ i th T (g : ValueGuard.t Val T) :
  (∀ cs c, cs ∈ progs → c ∈ cs → is_writer c = false) →
  reachable (init s0 brk0 progs) σ →
  threads σ !! i = Some th →
  r_guard T g ∈ got th →
  root_ (store σ) = s0
  ∧ ValueGuard.root_ g = s0
  ∧ (∃ k, Trie.Get T s0 k = Some (ValueGuard.value_ g))
  ∧ ∀ others,
      ValueGuard.deref others g = Some (Trie.p_val (ValueGuard.value_ g)).
Proof.
  intros Hro [sched Hrun] Hth Hg.
  assert (readers_inv s0 σ) as (Hroot & _ & Hinv).
  { pose proof (readers_inv_init s0 brk0 progs Hro) as Hinit.
    revert Hinit Hrun. generalize (init s0 brk0 progs).
    induction sched as [|j sched IH]; intros σ0 Hinit; simpl.
    - by intros [= <-].
    - destruct (step σ0 j) as [σ1|] eqn:Hs; simpl; [|done].
      apply IH. by eapply readers_inv_step. }
  destruct (Hinv i th Hth) as [[Hok _] _].
  rewrite Forall_forall in Hok. destruct (Hok _ Hg) as [Hs0 [k Hk]].
  split; [done|]. split; [done|]. split; [by exists k|].
  intros others. destruct g as [s p]. simpl in *. subst s.
  apply (GuardFacts.deref_make s0 p). by eapply TrieFacts.Get_holds.
Qed.

End ConcurrencyFacts.
End ConcurrencyFacts.

(** ** The further properties at concrete inputs *)

Module ScenarioMore.
Import TrieStore Scenario.

Lemma calls_return_witness :
  quiescent fresh_store
  ∧ ∃ st' brk' g,
      run_calls 0 [call_Put t_uint32 "a" 1%Z; call_Get t_uint32 "a";
                   call_Remove "a"; call_Get t_string "a"] fresh_store 0
      = (st', brk', mkThread [] 0 no_locals g)
      ∧ quiescent st'
      ∧ length g = 2.
Proof.
  split; [split; reflexivity|].
  apply (CallFacts.calls_return 0
           [call_Put t_uint32 "a" 1%Z; call_Get t_uint32 "a";
            call_Remove "a"; call_Get t_string "a"] fresh_store 0).
  split; reflexivity.
Defined.

Lemma Put_Put_Get_overwrites_witness :
  quiescent fresh_store
  ∧ ∃ st' brk' g,
      run_calls 0 [call_Put t_uint32 "a" 1%Z; call_Put t_string "a" "x";
                   call_Get t_string "a"] fresh_store 0
      = (st', brk', mkThread [] 0 no_locals [r_guard t_string g])
      ∧ ∀ others, ValueGuard.deref others g = Some "x".
Proof.
  split; [split; reflexivity|].
  apply (CallFacts.Put_Put_Get_overwrites 0 fresh_store 0 t_uint32 t_string
           "a" 1%Z "x").
  split; reflexivity.
Defined.

Lemma write_leaves_other_keys_witness :
  quiescent store_one_key
  ∧ is_writer (call_Remove (Val := den) "ab") = true
  ∧ key_of (call_Remove (Val := den) "ab") ≠ "a"
  ∧ found <$> got (run_calls 0 [call_Remove "ab"; call_Get t_uint32 "a"]
                             store_one_key 1).2
    = found <$> got (run_calls 0 [call_Get t_uint32 "a"] store_one_key 1).2.
Proof.
  split; [split; reflexivity|]. split; [reflexivity|]. split; [discriminate|].
  apply (CallFacts.write_leaves_other_keys 0 store_one_key 1
           (call_Remove "ab") t_uint32 "a").
  - split; reflexivity.
  - reflexivity.
  - discriminate.
Defined.

Lemma guard_survives_later_calls_witness :
  quiescent store_one_key
  ∧ Trie.Get t_uint32 (root_ store_one_key) "a" = Some ptr_a
  ∧ ∃ st' brk' g rest,
      run_calls 0 [call_Get t_uint32 "a"; call_Remove "a";
                   call_Put t_string "a" "x"] store_one_key 1
      = (st', brk', mkThread [] 0 no_locals (r_guard t_uint32 g :: rest))
      ∧ ValueGuard.value_ g = ptr_a
      ∧ ValueGuard.root_ g = root_ store_one_key
      ∧ ∀ others, ValueGuard.deref (root_ st' :: others) g = Some 1%Z.
Proof.
  split; [split; reflexivity|]. split; [vm_compute; reflexivity|].
  apply (CallFacts.guard_survives_later_calls 0 store_one_key 1 t_uint32 "a"
           ptr_a [call_Remove "a"; call_Put t_string "a" "x"]).
  - split; reflexivity.
  - vm_compute; reflexivity.
Defined.

(** The first writer holds both mutexes, the second one waits. *)
Lemma no_deadlock_witness :
  let σ := default two_writers (run_sched [0; 0] two_writers) in
  reachable two_writers σ
  ∧ (∃ i th, threads σ !! i = Some th ∧ todo th ≠ [])
  ∧ ∃ i, is_Some (step σ i).
Proof.
  intros σ.
  assert (reachable two_writers σ) as Hreach.
  { exists [0; 0]. vm_compute; reflexivity. }
  assert (∃ i th, threads σ !! i = Some th ∧ todo th ≠ []) as Hleft.
  { exists 1, (spawn [call_Remove "a"]). split; [vm_compute; reflexivity|].
    discriminate. }
  split; [exact Hreach|]. split; [exact Hleft|].
  exact (ConcurrencyFacts.no_deadlock Trie.empty 0 _ σ Hreach Hleft).
Defined.

Lemma root_lock_exclusive_witness :
  let σ := default reader_and_Put (run_sched [0; 1] reader_and_Put) in
  reachable reader_and_Put σ
  ∧ (∀ i j thi thj,
       threads σ !! i = Some thi → threads σ !! j = Some thj →
       holding RootLock thi = true → holding RootLock thj = true → i = j)
  ∧ (∀ i th, threads σ !! i = Some th →
             next_stmt th = Some s_bind_cur ∨ next_stmt th = Some s_assign_root_ →
             root_lock_ (store σ) = Some i).
Proof.
  intros σ.
  assert (reachable reader_and_Put σ) as Hreach.
  { exists [0; 1]. vm_compute; reflexivity. }
  split; [exact Hreach|].
  exact (ConcurrencyFacts.root_lock_exclusive Trie.empty 0 _ σ Hreach).
Defined.

Lemma locks_released_witness :
  let σ := default two_writers (run_sched sched_one_then_other two_writers) in
  reachable two_writers σ
  ∧ (∀ i th, threads σ !! i = Some th → pc th = 0 →
             root_lock_ (store σ) ≠ Some i ∧ write_lock_ (store σ) ≠ Some i)
  ∧ ((∀ i th, threads σ !! i = Some th → todo th = []) → quiescent (store σ)).
Proof.
  intros σ.
  assert (reachable two_writers σ) as Hreach.
  { exists sched_one_then_other. vm_compute; reflexivity. }
  split; [exact Hreach|].
  exact (ConcurrencyFacts.locks_released Trie.empty 0 _ σ Hreach).
Defined.

Lemma root_is_history_witness :
  let σ := default two_writers (run_sched sched_one_then_other two_writers) in
  run_sched sched_one_then_other two_writers = Some σ
  ∧ none_publishing σ
  ∧ root_ (store σ) = replay Trie.empty (history sched_one_then_other two_writers)
  ∧ Forall (λ w, is_writer w.1 = true) (history sched_one_then_other two_writers).
Proof.
  intros σ.
  assert (run_sched sched_one_then_other two_writers = Some σ) as Hrun.
  { vm_compute; reflexivity. }
  assert (none_publishing σ) as Hnone.
  { intros i th Hth. destruct i as [|[|i]]; vm_compute in Hth;
      [injection Hth as <-; discriminate..|discriminate Hth]. }
  split; [exact Hrun|]. split; [exact Hnone|].
  exact (ConcurrencyFacts.root_is_history Trie.empty 0 _ _ σ Hrun Hnone).
Defined.

Lemma readers_only_guards_valid_witness :
  let progs : list (list call) :=
    [ [call_Get t_uint32 "a"];
      [call_Get t_uint32 "a"; call_Get t_uint32 "b"] ] in
  let σ := default two_readers (run_sched sched_readers two_readers) in
  let g := ValueGuard.make (T := t_uint32) one_key ptr_a in
  let th := mkThread [call_Get t_uint32 "a"; call_Get t_uint32 "b"] 5
              (mkLocals (Some the_root_) (Some (existT t_uint32 ptr_a)) None)
              [r_guard t_uint32 g] in
  (∀ cs c, cs ∈ progs → c ∈ cs → is_writer c = false)
  ∧ reachable two_readers σ
  ∧ threads σ !! 1 = Some th
  ∧ r_guard t_uint32 g ∈ got th
  ∧ root_ (store σ) = one_key
  ∧ ValueGuard.root_ g = one_key
  ∧ (∃ k, Trie.Get t_uint32 one_key k = Some (ValueGuard.value_ g))
  ∧ ∀ others,
      ValueGuard.deref others g = Some (Trie.p_val (ValueGuard.value_ g)).
Proof.
  intros progs σ g th.
  assert (∀ cs c, cs ∈ progs → c ∈ cs → is_writer c = false) as Hro.
  { intros cs c Hcs Hc. apply list_elem_of_In in Hcs. simpl in Hcs.
    destruct Hcs as [<-|[<-|[]]]; apply list_elem_of_In in Hc; simpl in Hc.
    - destruct Hc as [<-|[]]. reflexivity.
    - destruct Hc as [<-|[<-|[]]]; reflexivity. }
  assert (reachable two_readers σ) as Hreach.
  { exists sched_readers. vm_compute; reflexivity. }
  assert (threads σ !! 1 = Some th) as Hth.
  { vm_compute; reflexivity. }
  assert (r_guard t_uint32 g ∈ got th) as Hg.
  { simpl. left. }
  split; [exact Hro|]. split; [exact Hreach|]. split; [exact Hth|].
  split; [exact Hg|].
  exact (ConcurrencyFacts.readers_only_guards_valid
           one_key 1 progs σ 1 th t_uint32 g Hro Hreach Hth Hg).
Defined.

End ScenarioMore.
